(** * A chess engine's search core: evaluation, move ordering, alpha-beta

    Shallow embedding of the AI worker of the chess application
    (evaluate, orderMoves, minimax, findBestMove) and the properties of
    its specification.

    Numbers.  Every score the worker computes is either an integer of
    small magnitude (at most 64 pieces of at most 20000 + 50 each, far
    inside the range where JavaScript numbers are exact) or one of the two
    sentinels Infinity and -Infinity, on which only Math.max, Math.min, <
    and <= are ever used.  Integers are modelled by Z, scores of the
    search by the three-constructor type [Num]. *)

From Stdlib Require Import ZArith List Lia Bool String Ascii Permutation.
From Stdlib Require Import DecimalString.
From stdpp Require Import gmap.
Import ListNotations.

Local Open Scope Z_scope.

(* ===================================================================== *)
(** ** Pieces, boards and the tables of the evaluator *)
(* ===================================================================== *)

(** chess.js PieceSymbol: 'p' | 'n' | 'b' | 'r' | 'q' | 'k'. *)
Inductive PieceSymbol := Pawn | Knight | Bishop | Rook | Queen | King.

(** chess.js Color: 'w' | 'b'. *)
Inductive Color := White | Black.

Record Piece := mkPiece { ptype : PieceSymbol; color : Color }.

(** [game.board()]: an array of rows, each an array of cells, a cell being
    a piece or null.  chess.js always produces 8 rows of 8 cells. *)
Definition Board := list (list (option Piece)).

Definition wf_board (b : Board) : Prop :=
  length b = 8%nat /\ Forall (fun row => length row = 8%nat) b.

Definition PIECE_VALUES (t : PieceSymbol) : Z :=
  match t with
  | Pawn => 100
  | Knight => 320
  | Bishop => 330
  | Rook => 500
  | Queen => 900
  | King => 20000
  end.

Definition PST_PAWN : list Z :=
  [  0;  0;  0;  0;  0;  0;  0;  0;
    50; 50; 50; 50; 50; 50; 50; 50;
    10; 10; 20; 30; 30; 20; 10; 10;
     5;  5; 10; 25; 25; 10;  5;  5;
     0;  0;  0; 20; 20;  0;  0;  0;
     5; -5;-10;  0;  0;-10; -5;  5;
     5; 10; 10;-20;-20; 10; 10;  5;
     0;  0;  0;  0;  0;  0;  0;  0 ].

Definition PST_KNIGHT : list Z :=
  [ -50;-40;-30;-30;-30;-30;-40;-50;
    -40;-20;  0;  0;  0;  0;-20;-40;
    -30;  0; 10; 15; 15; 10;  0;-30;
    -30;  5; 15; 20; 20; 15;  5;-30;
    -30;  0; 15; 20; 20; 15;  0;-30;
    -30;  5; 10; 15; 15; 10;  5;-30;
    -40;-20;  0;  5;  5;  0;-20;-40;
    -50;-40;-30;-30;-30;-30;-40;-50 ].

Definition PST_BISHOP : list Z :=
  [ -20;-10;-10;-10;-10;-10;-10;-20;
    -10;  0;  0;  0;  0;  0;  0;-10;
    -10;  0; 10; 10; 10; 10;  0;-10;
    -10;  5;  5; 10; 10;  5;  5;-10;
    -10;  0; 10; 10; 10; 10;  0;-10;
    -10; 10; 10; 10; 10; 10; 10;-10;
    -10;  5;  0;  0;  0;  0;  5;-10;
    -20;-10;-10;-10;-10;-10;-10;-20 ].

Definition PST_ROOK : list Z :=
  [  0;  0;  0;  0;  0;  0;  0;  0;
     5; 10; 10; 10; 10; 10; 10;  5;
    -5;  0;  0;  0;  0;  0;  0; -5;
    -5;  0;  0;  0;  0;  0;  0; -5;
    -5;  0;  0;  0;  0;  0;  0; -5;
    -5;  0;  0;  0;  0;  0;  0; -5;
    -5;  0;  0;  0;  0;  0;  0; -5;
     0;  0;  0;  5;  5;  0;  0;  0 ].

Definition PST_QUEEN : list Z :=
  [ -20;-10;-10; -5; -5;-10;-10;-20;
    -10;  0;  0;  0;  0;  0;  0;-10;
    -10;  0;  5;  5;  5;  5;  0;-10;
     -5;  0;  5;  5;  5;  5;  0; -5;
      0;  0;  5;  5;  5;  5;  0; -5;
    -10;  5;  5;  5;  5;  5;  0;-10;
    -10;  0;  5;  0;  0;  0;  0;-10;
    -20;-10;-10; -5; -5;-10;-10;-20 ].

Definition PST_KING_MID : list Z :=
  [ -30;-40;-40;-50;-50;-40;-40;-30;
    -30;-40;-40;-50;-50;-40;-40;-30;
    -30;-40;-40;-50;-50;-40;-40;-30;
    -30;-40;-40;-50;-50;-40;-40;-30;
    -20;-30;-30;-40;-40;-30;-30;-20;
    -10;-20;-20;-20;-20;-20;-20;-10;
     20; 20;  0;  0;  0;  0; 20; 20;
     20; 30; 10;  0;  0; 10; 30; 20 ].

Definition PST_MAP (t : PieceSymbol) : list Z :=
  match t with
  | Pawn => PST_PAWN
  | Knight => PST_KNIGHT
  | Bishop => PST_BISHOP
  | Rook => PST_ROOK
  | Queen => PST_QUEEN
  | King => PST_KING_MID
  end.

(** [pst[i]] for an index inside the table (the only ones evaluate uses). *)
Definition pstAt (t : PieceSymbol) (i : nat) : Z := nth i (PST_MAP t) 0.

(** [board[row][col]]. *)
Definition cell (b : Board) (row col : nat) : option Piece :=
  nth col (nth row b []) None.

(** [const idx = row * 8 + col]. *)
Definition idx (row col : nat) : nat := (row * 8 + col)%nat.

(** [const mirrorIdx = (7 - row) * 8 + col]. *)
Definition mirrorIdx (row col : nat) : nat := ((7 - row) * 8 + col)%nat.

(** The body of the inner loop of evaluate: the new value of [score]. *)
Definition evalCell (b : Board) (row : nat) (score : Z) (col : nat) : Z :=
  match cell b row col with
  | None => score
  | Some piece =>
      let value := PIECE_VALUES (ptype piece) in
      match color piece with
      | White => score + (value + pstAt (ptype piece) (mirrorIdx row col))
      | Black => score - (value + pstAt (ptype piece) (idx row col))
      end
  end.

(** [evaluate(game)], as a function of [game.board()]: the two nested
    loops over row = 0..7 and col = 0..7. *)
Definition evaluate (b : Board) : Z :=
  fold_left (fun score row => fold_left (evalCell b row) (seq 0 8) score)
            (seq 0 8) 0.

(** *** The evaluation as a sum over the pieces of each colour *)

Definition sumZ (l : list Z) : Z := fold_right Z.add 0 l.

(** The pieces of colour [c] on the square [(row, col)]: none or one. *)
Definition pieceAt (c : Color) (b : Board) (row col : nat)
  : list (nat * nat * PieceSymbol) :=
  match cell b row col with
  | Some (mkPiece t White) =>
      match c with White => [(row, col, t)] | Black => [] end
  | Some (mkPiece t Black) =>
      match c with White => [] | Black => [(row, col, t)] end
  | None => []
  end.

(** All pieces of colour [c], each with the row and column of its square. *)
Definition piecesOf (c : Color) (b : Board) : list (nat * nat * PieceSymbol) :=
  flat_map (fun row => flat_map (pieceAt c b row) (seq 0 8)) (seq 0 8).

(** Material value plus the table entry at the square's own index. *)
Definition directTerm (x : nat * nat * PieceSymbol) : Z :=
  let '(row, col, t) := x in PIECE_VALUES t + pstAt t (idx row col).

(** Material value plus the table entry at the vertically mirrored index. *)
Definition mirroredTerm (x : nat * nat * PieceSymbol) : Z :=
  let '(row, col, t) := x in PIECE_VALUES t + pstAt t (mirrorIdx row col).

(** The evaluation as the specification words it: White's pieces read the
    table directly, Black's pieces read it mirrored. *)
Definition evaluate_spec (b : Board) : Z :=
  sumZ (map directTerm (piecesOf White b))
  - sumZ (map mirroredTerm (piecesOf Black b)).

(** The colour-reversed, vertically mirrored counterpart of a board. *)
Definition flipColor (c : Color) : Color :=
  match c with White => Black | Black => White end.

Definition flipPiece (p : Piece) : Piece :=
  mkPiece (ptype p) (flipColor (color p)).

Definition mirror (b : Board) : Board :=
  rev (map (map (option_map flipPiece)) b).

(** The signed contribution of one cell to the total. *)
Definition contrib (row col : nat) (o : option Piece) : Z :=
  match o with
  | None => 0
  | Some piece =>
      match color piece with
      | White => PIECE_VALUES (ptype piece) + pstAt (ptype piece) (mirrorIdx row col)
      | Black => - (PIECE_VALUES (ptype piece) + pstAt (ptype piece) (idx row col))
      end
  end.

(** Boards used in examples. *)
Definition emptyRow : list (option Piece) := repeat None 8.

Definition wP : option Piece := Some (mkPiece Pawn White).
Definition bP : option Piece := Some (mkPiece Pawn Black).

(** A lone white pawn on the second row of the array, first column. *)
Definition loneWhitePawn : Board :=
  [ emptyRow;
    [wP; None; None; None; None; None; None; None];
    emptyRow; emptyRow; emptyRow; emptyRow; emptyRow; emptyRow ].

Definition backRank (c : Color) : list (option Piece) :=
  map (fun t => Some (mkPiece t c))
      [Rook; Knight; Bishop; Queen; King; Bishop; Knight; Rook].

(** The initial position: [board()] lists Black's back rank first. *)
Definition startBoard : Board :=
  [ backRank Black; repeat bP 8;
    emptyRow; emptyRow; emptyRow; emptyRow;
    repeat wP 8; backRank White ].

(* ===================================================================== *)
(** ** Moves and their ordering *)
(* ===================================================================== *)

(** The fields of a chess.js verbose move that the worker reads or returns.
    [captured] and [promotion] are absent (undefined) on most moves. *)
Record Move := mkMove {
  from : string;
  to : string;
  piece : PieceSymbol;
  captured : option PieceSymbol;
  promotion : option PieceSymbol;
  san : string
}.

(** [s.includes(c)] for a one-character needle. *)
Fixpoint includes (c : ascii) (s : string) : bool :=
  match s with
  | EmptyString => false
  | String c' s' => if Ascii.eqb c' c then true else includes c s'
  end.

(** The value of [scoreA] (or [scoreB]) that the comparator computes for a
    move: captures, promotions, checks. *)
Definition priority (a : Move) : Z :=
  let scoreA := 0 in
  let scoreA := match captured a with
                | Some t => scoreA + PIECE_VALUES t * 10
                | None => scoreA
                end in
  let scoreA := match promotion a with
                | Some t => scoreA + PIECE_VALUES t
                | None => scoreA
                end in
  if includes "+"%char (san a) then scoreA + 50 else scoreA.

(** The comparator handed to sort: [scoreB - scoreA]. *)
Definition compareMoves (a b : Move) : Z := priority b - priority a.

(** Array.prototype.sort with [compareMoves].  The comparator is a
    consistent one (it compares a numeric key), and the sort is stable
    (ECMAScript 2019), so the resulting order is the stable one whatever
    the host's algorithm: [a] stays before [b] unless the comparator is
    positive.  Insertion from the right computes exactly that order. *)
Fixpoint insertMove (a : Move) (l : list Move) : list Move :=
  match l with
  | [] => [a]
  | b :: l' => if compareMoves a b <=? 0 then a :: b :: l'
               else b :: insertMove a l'
  end.

Definition sortMoves (l : list Move) : list Move := fold_right insertMove [] l.

(** Arrays live in a store, by address: [sort] works in place and returns
    the array it was called on. *)
Definition loc := nat.

(** [orderMoves(moves)]: [return moves.sort(...)].  The argument is the
    address of an array; the result is the returned address and the store
    after the call.  [None] when the address holds no array. *)
Definition orderMoves (moves : loc) (h : gmap loc (list Move))
  : option (loc * gmap loc (list Move)) :=
  match h !! moves with
  | Some l => Some (moves, <[moves := sortMoves l]> h)
  | None => None
  end.

(** Descending priorities, the order the comparator asks for. *)
Fixpoint descending (l : list Move) : Prop :=
  match l with
  | [] => True
  | a :: l' => Forall (fun b => priority b <= priority a) l' /\ descending l'
  end.

(** The moves of priority [p]. *)
Definition hasPriority (p : Z) (m : Move) : bool := priority m =? p.

(* ===================================================================== *)
(** ** Scores of the search: numbers with the two infinities *)
(* ===================================================================== *)

Inductive Num := NegInf | Fin (z : Z) | PosInf.

(** [a <= b] on numbers. *)
Definition Nleb (a b : Num) : bool :=
  match a, b with
  | NegInf, _ => true
  | _, PosInf => true
  | Fin x, Fin y => x <=? y
  | _, _ => false
  end.

(** [a < b] on numbers. *)
Definition Nltb (a b : Num) : bool :=
  match a, b with
  | PosInf, _ => false
  | _, NegInf => false
  | Fin x, Fin y => x <? y
  | _, _ => true
  end.

Definition Nle (a b : Num) : Prop :=
  match a, b with
  | NegInf, _ => True
  | _, PosInf => True
  | Fin x, Fin y => x <= y
  | _, _ => False
  end.

Definition Nlt (a b : Num) : Prop :=
  match a, b with
  | PosInf, _ => False
  | _, NegInf => False
  | Fin x, Fin y => x < y
  | _, _ => True
  end.

(** [Math.max(a, b)]. *)
Definition Nmax (a b : Num) : Num :=
  match a, b with
  | PosInf, _ | _, PosInf => PosInf
  | NegInf, x | x, NegInf => x
  | Fin x, Fin y => Fin (Z.max x y)
  end.

(** [Math.min(a, b)]. *)
Definition Nmin (a b : Num) : Num :=
  match a, b with
  | NegInf, _ | _, NegInf => NegInf
  | PosInf, x | x, PosInf => x
  | Fin x, Fin y => Fin (Z.min x y)
  end.

Definition listMax (l : list Num) : Num := fold_right Nmax NegInf l.
Definition listMin (l : list Num) : Num := fold_right Nmin PosInf l.

Definition isFinite (a : Num) : Prop :=
  match a with Fin _ => True | _ => False end.

(** What a call with the window [(alpha, beta)] may return, [v], when the
    unpruned value is [t]: the value itself inside the window, and a bound
    on the same side as the value outside it. *)
Definition within (alpha beta t v : Num) : Prop :=
  (Nle t alpha -> Nle v alpha) /\
  (Nlt alpha t -> Nlt t beta -> Nle v t /\ Nle t v) /\
  (Nle beta t -> Nle beta v).

(* ===================================================================== *)
(** ** The rules engine *)
(* ===================================================================== *)

(** The chess.js [Chess] object as the worker uses it.  The library is an
    external dependency; the search is written against this interface.
    A value of the carrier is the whole state of one game object (board,
    side to move, rights, history). *)
Class Rules (Chess : Type) := {
  (** [new Chess(fen)] on a well-formed FEN *)
  newChess : string -> Chess;
  (** [game.moves({ verbose: true })]: the legal moves *)
  moves : Chess -> list Move;
  (** [game.move(m)]: the state after playing [m] *)
  move : Chess -> Move -> Chess;
  (** [game.undo()]: the state after taking back the last move *)
  undo : Chess -> Chess;
  (** [game.isGameOver()] *)
  isGameOver : Chess -> bool;
  (** [game.isCheckmate()]; not called by the worker *)
  isCheckmate : Chess -> bool;
  (** [game.board()] *)
  board : Chess -> Board
}.

Section Engine.

Context {Chess : Type} `{Rules Chess}.

(** The contract of the engine: undo takes back the legal move just
    played. *)
Definition undo_restores : Prop :=
  forall (g : Chess) (m : Move), In m (moves g) -> undo (move g m) = g.


(** Positions reachable from [g] by legal moves. *)
Inductive reachable (g : Chess) : Chess -> Prop :=
| reach_here : reachable g g
| reach_move g' m : reachable g g' -> In m (moves g') -> reachable g (move g' m).

(** Every position reachable from [g] that has no legal move is reported
    over (in chess.js: checkmate or stalemate). *)
Definition no_moves_is_over (g : Chess) : Prop :=
  forall g', reachable g g' -> moves g' = [] -> isGameOver g' = true.

(** chess.js computes isGameOver as checkmate, stalemate or a draw: every
    position reachable from [g] that is checkmate is reported over. *)
Definition checkmate_is_over (g : Chess) : Prop :=
  forall g', reachable g g' -> isCheckmate g' = true -> isGameOver g' = true.

(** The side to move at [g] can give checkmate in one move. *)
Definition mate_in_one (g : Chess) : Prop :=
  exists m, In m (moves g) /\ isCheckmate (move g m) = true.

(* ===================================================================== *)
(** ** The search, over the mutable game object *)
(* ===================================================================== *)

(** What the search does to its collaborators, in order. *)
Inductive Event :=
| EvMove (m : Move)   (* game.move(m) *)
| EvUndo              (* game.undo() *)
| EvMoves             (* game.moves(...) *)
| EvEvaluate.         (* evaluate(game) *)

(** A computation on the game object: from the state of the object to a
    result, the new state and the events emitted; [None] when the fuel of
    the recursion is used up before the computation returns. *)
Definition M (A : Type) : Type := Chess -> option (A * Chess * list Event).

Definition ret {A} (a : A) : M A := fun g => Some (a, g, []).

Definition bind {A B} (c : M A) (k : A -> M B) : M B :=
  fun g =>
    match c g with
    | None => None
    | Some (a, g1, t1) =>
        match k a g1 with
        | None => None
        | Some (b, g2, t2) => Some (b, g2, t1 ++ t2)
        end
    end.

Notation "'let*' x ':=' c 'in' k" := (bind c (fun x => k))
  (at level 10, x name, c at level 100, k at level 200).

Definition outOfFuel {A} : M A := fun _ => None.

Definition gameMove (m : Move) : M unit := fun g => Some (tt, move g m, [EvMove m]).
Definition gameUndo : M unit := fun g => Some (tt, undo g, [EvUndo]).
Definition gameMoves : M (list Move) := fun g => Some (moves g, g, [EvMoves]).
Definition gameIsGameOver : M bool := fun g => Some (isGameOver g, g, []).
Definition gameEvaluate : M Num := fun g => Some (Fin (evaluate (board g)), g, [EvEvaluate]).

(** [orderMoves(game.moves({ verbose: true }))]: the array comes fresh from
    the engine and nothing else holds it, so only its sorted contents
    matter to the caller. *)
Definition orderedMoves : M (list Move) :=
  let* ms := gameMoves in ret (sortMoves ms).

(** The loop of the maximizing branch, from the move [ms] starts with;
    [rec alpha beta] is the recursive call on the position reached. *)
Fixpoint maxLoop (rec : Num -> Num -> M Num) (ms : list Move)
         (maxEval alpha beta : Num) : M Num :=
  match ms with
  | [] => ret maxEval
  | m :: rest =>
      let* _ := gameMove m in
      let* evalScore := rec alpha beta in
      let* _ := gameUndo in
      let maxEval := Nmax maxEval evalScore in
      let alpha := Nmax alpha evalScore in
      if Nleb beta alpha then ret maxEval
      else maxLoop rec rest maxEval alpha beta
  end.

(** The loop of the minimizing branch. *)
Fixpoint minLoop (rec : Num -> Num -> M Num) (ms : list Move)
         (minEval alpha beta : Num) : M Num :=
  match ms with
  | [] => ret minEval
  | m :: rest =>
      let* _ := gameMove m in
      let* evalScore := rec alpha beta in
      let* _ := gameUndo in
      let minEval := Nmin minEval evalScore in
      let beta := Nmin beta evalScore in
      if Nleb beta alpha then ret minEval
      else minLoop rec rest minEval alpha beta
  end.

(** [minimax(game, depth, alpha, beta, isMaximizing)].  [depth] is the
    number it is in the source (the test is [depth === 0]); the recursion
    is on [fuel], one unit per nested call. *)
Fixpoint minimax (fuel : nat) (depth : Z) (alpha beta : Num)
         (isMaximizing : bool) : M Num :=
  match fuel with
  | O => outOfFuel
  | S fuel' =>
      let* stop := (if depth =? 0 then ret true else gameIsGameOver) in
      if stop then gameEvaluate
      else
        let* ms := orderedMoves in
        if isMaximizing then
          maxLoop (fun a b => minimax fuel' (depth - 1) a b false) ms NegInf alpha beta
        else
          minLoop (fun a b => minimax fuel' (depth - 1) a b true) ms PosInf alpha beta
  end.

(** The loop of findBestMove; [rec] is the call
    [minimax(game, depth - 1, -Infinity, Infinity, true)]. *)
Fixpoint rootLoop (rec : M Num) (ms : list Move)
         (bestMove : option Move) (bestEval : Num) : M (option Move * Num) :=
  match ms with
  | [] => ret (bestMove, bestEval)
  | m :: rest =>
      let* _ := gameMove m in
      let* evalScore := rec in
      let* _ := gameUndo in
      if Nltb evalScore bestEval then rootLoop rec rest (Some m) evalScore
      else rootLoop rec rest bestMove bestEval
  end.

(** The body of findBestMove once the game object exists.  The result
    pairs the returned [bestMove] (None for null) with the last value of
    the local [bestEval], which the source keeps to itself (Infinity when
    the function returns before the loop). *)
Definition search (fuel : nat) (depth : Z) : M (option Move * Num) :=
  let* ms := orderedMoves in
  if (length ms =? 0)%nat then ret (None, PosInf)
  else rootLoop (minimax fuel (depth - 1) NegInf PosInf true) ms None PosInf.

(** [findBestMove(fen, depth)]: [None] is an exhausted fuel, [Some None]
    the return value null.  The depth is given explicitly; the source's
    default of 3 only fills in for a caller that passes none. *)
Definition findBestMove (fuel : nat) (fen : string) (depth : Z)
  : option (option Move) :=
  match search fuel depth (newChess fen) with
  | Some (r, _, _) => Some (fst r)
  | None => None
  end.

(** The score findBestMove gives to the root move [m]. *)
Definition rootScore (fuel : nat) (depth : Z) (g : Chess) (m : Move) : option Num :=
  match minimax fuel (depth - 1) NegInf PosInf true (move g m) with
  | Some (v, _, _) => Some v
  | None => None
  end.

(** *** The unpruned reference *)

(** Plain minimax over the game tree of the engine, as the specification
    describes the recursive step without the cutoff: static evaluation at
    depth 0 or at a finished game, otherwise the maximum (maximizing) or the
    minimum (minimizing) over all legal moves, taken in the engine's own
    order. *)
Fixpoint fullMinimax (n : nat) (g : Chess) (isMaximizing : bool) : Num :=
  match n with
  | O => Fin (evaluate (board g))
  | S n' =>
      if isGameOver g then Fin (evaluate (board g))
      else if isMaximizing
           then listMax (map (fun m => fullMinimax n' (move g m) false) (moves g))
           else listMin (map (fun m => fullMinimax n' (move g m) true) (moves g))
  end.

(** *** Traces *)

(** The number of moves played and not yet taken back after [tr], starting
    from [d] of them; [None] if some undo finds nothing to take back. *)
Fixpoint pending (tr : list Event) (d : nat) : option nat :=
  match tr with
  | [] => Some d
  | EvMove _ :: tr' => pending tr' (S d)
  | EvUndo :: tr' => match d with O => None | S d' => pending tr' d' end
  | _ :: tr' => pending tr' d
  end.

(** Every undo takes back the latest move not yet taken back, and no move
    is left standing. *)
Definition balanced (tr : list Event) : Prop := pending tr 0 = Some 0%nat.

Definition isEvaluate (e : Event) : bool :=
  match e with EvEvaluate => true | _ => false end.

Definition isMoveEv (e : Event) : bool :=
  match e with EvMove _ => true | _ => false end.

Definition isUndoEv (e : Event) : bool :=
  match e with EvUndo => true | _ => false end.

Definition count (p : Event -> bool) (tr : list Event) : nat :=
  length (List.filter p tr).

(** A trace that leaves the number of standing moves as it found it,
    whatever that number. *)
Definition neutral (tr : list Event) : Prop := forall d, pending tr d = Some d.

(** *** Specifications of computations *)

(** [c] returns from the state [g]. *)
Definition returns {A} (c : M A) (g : Chess) : Prop :=
  exists r, c g = Some r.

(** [c] returns from [g] with a result satisfying [P], the game object
    back in the state [g], and every move taken back. *)
Definition restores {A} (c : M A) (g : Chess) (P : A -> Prop) : Prop :=
  exists a tr, c g = Some (a, g, tr) /\ neutral tr /\ P a.

(** Whenever [c] returns from [g], the game object is back in the state
    [g] and every move has been taken back. *)
Definition preserves {A} (c : M A) (g : Chess) : Prop :=
  forall a g' tr, c g = Some (a, g', tr) -> g' = g /\ neutral tr.

(** What the loop of findBestMove leaves in [(bestMove, bestEval)], from
    the values [(bm, be)] and the moves [ms] scored by [sc]: either no
    score was below [be] and nothing changed, or the move kept is the first
    one with the lowest score. *)
Definition firstLowest (sc : Move -> Num) (ms : list Move)
           (bm : option Move) (be : Num) (r : option Move * Num) : Prop :=
  (r = (bm, be) /\ forall m, In m ms -> Nle be (sc m))
  \/
  (exists i m,
      nth_error ms i = Some m /\ r = (Some m, sc m) /\ Nlt (sc m) be /\
      (forall j m', (j < i)%nat -> nth_error ms j = Some m' -> Nlt (sc m) (sc m')) /\
      (forall m', In m' ms -> Nle (sc m) (sc m'))).

End Engine.

Arguments M : clear implicits.

(* ===================================================================== *)
(** ** A table-driven engine, for concrete positions *)
(* ===================================================================== *)

(** A position with what the engine reports about it and, for each legal
    move, the position it leads to. *)
#[local] Unset Elimination Schemes.
Inductive Tree :=
| Node (b : Board) (over mate : bool) (kids : list (Move * Tree)).
#[local] Set Elimination Schemes.

Definition treeBoard (t : Tree) : Board := let 'Node b _ _ _ := t in b.
Definition treeOver (t : Tree) : bool := let 'Node _ o _ _ := t in o.
Definition treeMate (t : Tree) : bool := let 'Node _ _ m _ := t in m.
Definition treeKids (t : Tree) : list (Move * Tree) := let 'Node _ _ _ k := t in k.

(** The game object: the current position and the positions the moves
    played so far started from, latest first. *)
Record TreeGame := mkGame { cur : Tree; past : list Tree }.

Definition symbolEqb (a b : PieceSymbol) : bool :=
  match a, b with
  | Pawn, Pawn | Knight, Knight | Bishop, Bishop
  | Rook, Rook | Queen, Queen | King, King => true
  | _, _ => false
  end.

(** chess.js finds the move an object denotes by from, to and promotion. *)
Definition sameMove (a b : Move) : bool :=
  String.eqb (from a) (from b) && String.eqb (to a) (to b) &&
  match promotion a, promotion b with
  | None, None => true
  | Some x, Some y => symbolEqb x y
  | _, _ => false
  end.

Fixpoint findKid (m : Move) (kids : list (Move * Tree)) : option Tree :=
  match kids with
  | [] => None
  | (m', t) :: rest => if sameMove m m' then Some t else findKid m rest
  end.

(** A move that is not legal makes chess.js throw; the search only plays
    moves of the list, and the table leaves the game as it is otherwise. *)
Definition treeMove (g : TreeGame) (m : Move) : TreeGame :=
  match findKid m (treeKids (cur g)) with
  | Some t => mkGame t (cur g :: past g)
  | None => g
  end.

Definition treeUndo (g : TreeGame) : TreeGame :=
  match past g with
  | t :: rest => mkGame t rest
  | [] => g
  end.

Definition treeRules (root : string -> Tree) : Rules TreeGame := {|
  newChess fen := mkGame (root fen) [];
  moves g := map fst (treeKids (cur g));
  move := treeMove;
  undo := treeUndo;
  isGameOver g := treeOver (cur g);
  isCheckmate g := treeMate (cur g);
  board g := treeBoard (cur g)
|}.

(** [p] holds of every position of a table. *)
Fixpoint allNodes (p : Tree -> bool) (t : Tree) : bool :=
  match t with
  | Node b o mt kids =>
      p (Node b o mt kids) &&
      (fix all (ks : list (Move * Tree)) : bool :=
         match ks with
         | [] => true
         | (_, k) :: ks' => allNodes p k && all ks'
         end) kids
  end.

(** A position without a move is marked over. *)
Definition noMoveIsOver (t : Tree) : bool :=
  match treeKids t with [] => treeOver t | _ :: _ => true end.

(** A position marked checkmate is marked over. *)
Definition mateIsOver (t : Tree) : bool := implb (treeMate t) (treeOver t).

(** *** A position with a mate in one: 8/8/8/8/8/6pk/7N/6BK b - - 0 1 *)

Definition wK : option Piece := Some (mkPiece King White).
Definition wB : option Piece := Some (mkPiece Bishop White).
Definition wN : option Piece := Some (mkPiece Knight White).
Definition bK : option Piece := Some (mkPiece King Black).

Definition row_ (g h : option Piece) : list (option Piece) :=
  [None; None; None; None; None; None; g; h].

(** Black to move: king h3 and pawn g3 against king h1, bishop g1 and
    knight h2. *)
Definition mateBoard : Board :=
  [ emptyRow; emptyRow; emptyRow; emptyRow; emptyRow;
    row_ bP bK; row_ None wN; row_ wB wK ].

(** After 1... g2#: the pawn checks, g1 and h2 are taken by White's own
    pieces, g2 is guarded by the king on h3, and neither the bishop nor the
    knight reaches g2. *)
Definition afterPawnPush : Board :=
  [ emptyRow; emptyRow; emptyRow; emptyRow; emptyRow;
    row_ None bK; row_ bP wN; row_ wB wK ].

(** After 1... gxh2. *)
Definition afterPawnTakes : Board :=
  [ emptyRow; emptyRow; emptyRow; emptyRow; emptyRow;
    row_ None bK; row_ None bP; row_ wB wK ].

(** After 1... Kh4. *)
Definition afterKingStep : Board :=
  [ emptyRow; emptyRow; emptyRow; emptyRow;
    row_ None bK; row_ bP None; row_ None wN; row_ wB wK ].

Definition pawnPush : Move := mkMove "g3" "g2" Pawn None None "g2#".
Definition pawnTakes : Move := mkMove "g3" "h2" Pawn (Some Knight) None "gxh2".
Definition kingStep : Move := mkMove "h3" "h4" King None None "Kh4".

(** The three legal moves of Black (g4, g2 and h2 are closed to the king)
    and the positions after them.  The table is one ply deep: White's
    replies are not listed, a search of depth 1 evaluates the three
    positions without asking for them. *)
Definition mateTree : Tree :=
  Node mateBoard false false
    [ (pawnPush, Node afterPawnPush true true []);
      (pawnTakes, Node afterPawnTakes false false []);
      (kingStep, Node afterKingStep false false []) ].

Definition mateRules : Rules TreeGame := treeRules (fun _ => mateTree).

(** The same table started after 1... g2#: White has no legal move. *)
Definition matedRules : Rules TreeGame :=
  treeRules (fun _ => Node afterPawnPush true true []).

Definition mateFen : string := "8/8/8/8/8/6pk/7N/6BK b - - 0 1".

(** *** A hand-made tree of two plies *)

Definition noBoard : Board := repeat emptyRow 8.

Definition pawnOn (c : Color) (row : nat) : Board :=
  map (fun r => if (r =? row)%nat
                then [Some (mkPiece Pawn c); None; None; None; None; None; None; None]
                else emptyRow)
      (seq 0 8).

Definition quiet (f t : string) : Move := mkMove f t Pawn None None t.

Definition leaf (b : Board) : Tree := Node b true false [].

(** Leaves worth 105 and 150 under the first move, -150 and 0 under the
    second. *)
Definition twoPly : Tree :=
  Node noBoard false false
    [ (quiet "a7" "a6",
       Node noBoard false false
         [ (quiet "a2" "a3", leaf (pawnOn White 1));
           (quiet "a2" "a4", leaf (pawnOn White 6)) ]);
      (quiet "b7" "b6",
       Node noBoard false false
         [ (quiet "b2" "b3", leaf (pawnOn Black 1));
           (quiet "b2" "b4", leaf noBoard) ]) ].

Definition twoPlyRules : Rules TreeGame := treeRules (fun _ => twoPly).

(** *** A tree of three plies with a cutoff *)

(** One root move; then a maximizing position with two moves; the first
    leads to a leaf worth 105, the second to a position whose first reply
    is worth 0 and whose second reply, worth 150, is never looked at: 0 is
    already below the 105 in hand. *)
Definition threePly : Tree :=
  Node noBoard false false
    [ (quiet "a7" "a6",
       Node noBoard false false
         [ (quiet "a2" "a3",
            Node noBoard false false
              [ (quiet "b7" "b6", leaf (pawnOn White 1)) ]);
           (quiet "a2" "a4",
            Node noBoard false false
              [ (quiet "b7" "b6", leaf noBoard);
                (quiet "b7" "b5", leaf (pawnOn White 6)) ]) ]) ].

Definition threePlyRules : Rules TreeGame := treeRules (fun _ => threePly).

(** *** An engine whose game never ends *)

(** One quiet move, always; the state counts the moves played. *)
Definition endlessRules : Rules nat := {|
  newChess _ := O;
  moves _ := [quiet "a1" "a2"];
  move g _ := S g;
  undo g := pred g;
  isGameOver _ := false;
  isCheckmate _ := false;
  board _ := noBoard
|}.

(** *** Arrays for the examples of orderMoves *)

Definition queenTakes : Move := mkMove "d1" "d8" Queen (Some Queen) None "Qxd8+".

Definition twoMoves : list Move := [kingStep; queenTakes].

Definition oneArray : gmap loc (list Move) := {[ 0%nat := twoMoves ]}.

(* ===================================================================== *)
(** ** Further notions for the search *)
(* ===================================================================== *)

(** The other half of what a window allows: a value returned at or below
    alpha is at least the unpruned value, one at or above beta is at most
    the unpruned value, and one strictly inside the window is the unpruned
    value. *)
Definition sound (alpha beta t v : Num) : Prop :=
  (Nle v alpha -> Nle t v) /\
  (Nlt alpha v -> Nlt v beta -> Nle v t /\ Nle t v) /\
  (Nle beta v -> Nle v t).

(** A score is one of the infinities or an integer evaluate can return. *)
Definition inRange (a : Num) : Prop :=
  match a with
  | Fin z => -1283200 <= z <= 1283200
  | _ => True
  end.

Section MoreSearch.

Context {Chess : Type} `{Rules Chess}.

(** The static evaluations an unpruned traversal to depth [n] makes. *)
Fixpoint leaves (n : nat) (g : Chess) : nat :=
  match n with
  | O => 1%nat
  | S n' =>
      if isGameOver g then 1%nat
      else list_sum (map (fun m => leaves n' (move g m)) (moves g))
  end.

(** Whenever [c] returns from [g], the game object is back in the state
    [g] and evaluate has been called at most [N] times. *)
Definition evaluatesAtMost {A} (c : M Chess A) (g : Chess) (N : nat) : Prop :=
  forall a g' tr,
    c g = Some (a, g', tr) -> g' = g /\ (count isEvaluate tr <= N)%nat.

End MoreSearch.

(** The engine [R] with its legal moves listed as [mv] lists them. *)
Definition withMoves {Chess : Type} (R : Rules Chess)
           (mv : Chess -> list Move) : Rules Chess := {|
  newChess := @newChess _ R;
  moves := mv;
  move := @move _ R;
  undo := @undo _ R;
  isGameOver := @isGameOver _ R;
  isCheckmate := @isCheckmate _ R;
  board := @board _ R
|}.

(* ===================================================================== *)
(** ** Square names *)
(* ===================================================================== *)

(** [String.fromCharCode(n)] for a code below 256. *)
Definition fromCharCode (n : nat) : string := String (ascii_of_nat n) EmptyString.

(** [n.toString()] for a natural number. *)
Definition toString (n : nat) : string := NilEmpty.string_of_uint (Nat.to_uint n).

(** The name of the square at [board()[row][col]], as findKingSquare, the
    board component and the piece component all compute it:
    [String.fromCharCode(97 + col) + (8 - row).toString()]. *)
Definition squareOf (row col : nat) : string :=
  (fromCharCode (97 + col) ++ toString (8 - row))%string.

(** [s[i]]. *)
Definition charAt (s : string) (i : nat) : option ascii := String.get i s.

(* ===================================================================== *)
(** ** The game store *)
(* ===================================================================== *)

Inductive GameStatus :=
  Playing | Checkmate | Stalemate | Draw | Threefold | Insufficient.

Inductive GameMode := AiMode | PvpMode.

Inductive ThemeMode := Dark | Light.

(** The chess.js object as the store uses it; [G] is the state of one
    such object. *)
Class ChessJs (G : Type) := {
  (** [new Chess()] *)
  game_new : G;
  (** [game.fen()] *)
  game_fen : G -> string;
  (** [game.turn()] *)
  game_turn : G -> Color;
  (** [game.get(square)] *)
  game_get : G -> string -> option Piece;
  (** [game.moves({ square, verbose: true })] *)
  game_moves : G -> string -> list Move;
  (** [game.move({ from, to, promotion })]: the move made, its flags and
      the state after it; [None] when the engine refuses the move (it
      throws, or returns null), leaving the object as it was *)
  game_move : G -> string -> string -> option PieceSymbol
              -> option (Move * string * G);
  (** [game.undo()] *)
  game_undo : G -> G;
  game_inCheck : G -> bool;
  game_isCheckmate : G -> bool;
  game_isStalemate : G -> bool;
  game_isThreefoldRepetition : G -> bool;
  game_isInsufficientMaterial : G -> bool;
  game_isDraw : G -> bool;
  (** [game.history({ verbose: true })] *)
  game_history : G -> list Move;
  (** [game.board()] *)
  game_board : G -> Board
}.

Definition colorEqb (a b : Color) : bool :=
  match a, b with
  | White, White | Black, Black => true
  | _, _ => false
  end.

(** A loop over indices with a [return] in its body: the first value the
    body returns. *)
Fixpoint firstReturn {A} (body : nat -> option A) (indices : list nat) : option A :=
  match indices with
  | [] => None
  | i :: rest =>
      match body i with
      | Some a => Some a
      | None => firstReturn body rest
      end
  end.

(** [findKingSquare(game, color)], as a function of [game.board()]. *)
Definition findKingSquare (b : Board) (c : Color) : option string :=
  firstReturn
    (fun row =>
       firstReturn
         (fun col =>
            match cell b row col with
            | Some piece =>
                if symbolEqb (ptype piece) King && colorEqb (color piece) c
                then Some (squareOf row col)
                else None
            | None => None
            end)
         (seq 0 8))
    (seq 0 8).

(** What the store does to the world outside it. *)
Inductive Effect :=
| PlayPromoteSound
| PlayCastleSound
| PlayCaptureSound
| PlayMoveSound
| PlayCheckSound
| PlayGameOverSoundLater        (* setTimeout(playGameOverSound, 300) *)
| AskAI (fen : string) (depth : Z)  (* findBestMoveAsync(fen, depth) *)
| DarkClassAdd
| DarkClassRemove.

Section Store.

Context {G : Type} `{ChessJs G}.

(** [getGameStatus(game)]. *)
Definition getGameStatus (g : G) : GameStatus :=
  if game_isCheckmate g then Checkmate
  else if game_isStalemate g then Stalemate
  else if game_isThreefoldRepetition g then Threefold
  else if game_isInsufficientMaterial g then Insufficient
  else if game_isDraw g then Draw
  else Playing.

Definition isPlaying (s : GameStatus) : bool :=
  match s with Playing => true | _ => false end.

Definition isAiMode (m : GameMode) : bool :=
  match m with AiMode => true | PvpMode => false end.

(** The data of the store.  [game] is the state of the chess.js object the
    store holds; the object is changed in place by [game.move] and
    [game.undo], so this field follows it. *)
Record State := mkState {
  game : G;
  fen : string;
  history : list Move;
  status : GameStatus;
  turn : Color;
  gameMode : GameMode;
  isGameStarted : bool;
  selectedSquare : option string;
  legalMoves : list string;
  lastMove : option (string * string);
  kingInCheck : option string;
  showLegalMoves : bool;
  pendingPromotion : option (string * string);
  aiEnabled : bool;
  aiThinking : bool;
  aiDepth : Z;
  theme : ThemeMode;
  soundEnabled : bool
}.

(** The store as created. *)
Definition initialState : State := {|
  game := game_new;
  fen := game_fen game_new;
  history := [];
  status := Playing;
  turn := White;
  gameMode := AiMode;
  isGameStarted := false;
  selectedSquare := None;
  legalMoves := [];
  lastMove := None;
  kingInCheck := None;
  pendingPromotion := None;
  aiEnabled := true;
  aiThinking := false;
  aiDepth := 3;
  theme := Dark;
  soundEnabled := true;
  showLegalMoves := true
|}.

(** [getLegalMovesFrom(square)]. *)
Definition getLegalMovesFrom (s : State) (square : string) : list string :=
  map to (game_moves (game s) square).

(** [l.includes(x)] on squares. *)
Definition includesSquare (l : list string) (x : string) : bool :=
  existsb (String.eqb x) l.

(** The test for a pawn reaching its last rank, in selectSquare and in the
    board's drop handler. *)
Definition reachesLastRank (movingPiece : option Piece) (square : string) : bool :=
  match movingPiece with
  | Some p =>
      symbolEqb (ptype p) Pawn &&
      ((colorEqb (color p) White &&
        match charAt square 1 with Some c => Ascii.eqb c "8" | None => false end)
       ||
       (colorEqb (color p) Black &&
        match charAt square 1 with Some c => Ascii.eqb c "1" | None => false end))
  | None => false
  end.

(** The sound of an accepted move. *)
Definition moveSound (promotion : option PieceSymbol) (mv : Move) (flags : string)
  : Effect :=
  match promotion with
  | Some _ => PlayPromoteSound
  | None =>
      if includes "k" flags || includes "q" flags then PlayCastleSound
      else match captured mv with
           | Some _ => PlayCaptureSound
           | None => PlayMoveSound
           end
  end.

(** [set({ aiThinking: v })] and the like: the state with some fields
    replaced. *)
Definition set_aiThinking (v : bool) (s : State) : State := {|
  game := game s; fen := fen s; history := history s; status := status s;
  turn := turn s; gameMode := gameMode s; isGameStarted := isGameStarted s;
  selectedSquare := selectedSquare s; legalMoves := legalMoves s;
  lastMove := lastMove s; kingInCheck := kingInCheck s;
  showLegalMoves := showLegalMoves s; pendingPromotion := pendingPromotion s;
  aiEnabled := aiEnabled s; aiThinking := v; aiDepth := aiDepth s;
  theme := theme s; soundEnabled := soundEnabled s |}.

Definition set_pendingPromotion (v : option (string * string)) (s : State)
  : State := {|
  game := game s; fen := fen s; history := history s; status := status s;
  turn := turn s; gameMode := gameMode s; isGameStarted := isGameStarted s;
  selectedSquare := selectedSquare s; legalMoves := legalMoves s;
  lastMove := lastMove s; kingInCheck := kingInCheck s;
  showLegalMoves := showLegalMoves s; pendingPromotion := v;
  aiEnabled := aiEnabled s; aiThinking := aiThinking s; aiDepth := aiDepth s;
  theme := theme s; soundEnabled := soundEnabled s |}.

Definition set_selection (sel : option string) (legal : list string)
           (s : State) : State := {|
  game := game s; fen := fen s; history := history s; status := status s;
  turn := turn s; gameMode := gameMode s; isGameStarted := isGameStarted s;
  selectedSquare := sel; legalMoves := legal;
  lastMove := lastMove s; kingInCheck := kingInCheck s;
  showLegalMoves := showLegalMoves s; pendingPromotion := pendingPromotion s;
  aiEnabled := aiEnabled s; aiThinking := aiThinking s; aiDepth := aiDepth s;
  theme := theme s; soundEnabled := soundEnabled s |}.

Definition set_settings (legalShown ai sound : bool) (depth : Z)
           (th : ThemeMode) (s : State) : State := {|
  game := game s; fen := fen s; history := history s; status := status s;
  turn := turn s; gameMode := gameMode s; isGameStarted := isGameStarted s;
  selectedSquare := selectedSquare s; legalMoves := legalMoves s;
  lastMove := lastMove s; kingInCheck := kingInCheck s;
  showLegalMoves := legalShown; pendingPromotion := pendingPromotion s;
  aiEnabled := ai; aiThinking := aiThinking s; aiDepth := depth;
  theme := th; soundEnabled := sound |}.

(** [makeMove(from, to, promotion)], on the state [get()] returns. *)
Definition makeMove (state : State) (from to : string)
           (promotion : option PieceSymbol) : State * list Effect :=
  match game_move (game state) from to promotion with
  | None => (state, [])
  | Some (mv, flags, g) =>
      let sounds1 :=
        if soundEnabled state then [moveSound promotion mv flags] else [] in
      let newStatus := getGameStatus g in
      let isInCheck := game_inCheck g in
      let kingSquare :=
        if isInCheck then findKingSquare (game_board g) (game_turn g) else None in
      let sounds2 :=
        if soundEnabled state && isInCheck && isPlaying newStatus
        then [PlayCheckSound] else [] in
      let sounds3 :=
        if soundEnabled state && negb (isPlaying newStatus)
        then [PlayGameOverSoundLater] else [] in
      let s1 := {|
        game := g;
        fen := game_fen g;
        history := game_history g;
        status := newStatus;
        turn := game_turn g;
        selectedSquare := None;
        legalMoves := [];
        lastMove := Some (from, to);
        kingInCheck := kingSquare;
        pendingPromotion := None;
        gameMode := gameMode state;
        isGameStarted := isGameStarted state;
        showLegalMoves := showLegalMoves state;
        aiEnabled := aiEnabled state;
        aiThinking := aiThinking state;
        aiDepth := aiDepth state;
        theme := theme state;
        soundEnabled := soundEnabled state
      |} in
      if isPlaying newStatus && isAiMode (gameMode state)
         && colorEqb (game_turn g) Black
      then (set_aiThinking true s1,
            sounds1 ++ sounds2 ++ sounds3 ++ [AskAI (game_fen g) (aiDepth state)])
      else (s1, sounds1 ++ sounds2 ++ sounds3)
  end.

(** The callback of the promise findBestMoveAsync returned, run with the
    move the worker sent (None for null) on the state of that moment. *)
Definition aiAnswered (currentState : State) (aiMove : option Move)
  : State * list Effect :=
  let '(s1, effects) :=
    match aiMove with
    | Some mv =>
        if isPlaying (status currentState) && isAiMode (gameMode currentState)
        then makeMove currentState (from mv) (to mv) (promotion mv)
        else (currentState, [])
    | None => (currentState, [])
    end in
  (set_aiThinking false s1, effects).

(** [selectSquare(square)]. *)
Definition selectSquare (state : State) (square : string)
  : State * list Effect :=
  if negb (isPlaying (status state)) || aiThinking state then (state, [])
  else if isAiMode (gameMode state)
          && colorEqb (game_turn (game state)) Black then (state, [])
  else
    let piece := game_get (game state) square in
    let own :=
      match piece with
      | Some p =>
          if colorEqb (color p) (game_turn (game state))
          then (set_selection (Some square) (getLegalMovesFrom state square) state, [])
          else (set_selection None [] state, [])
      | None => (set_selection None [] state, [])
      end in
    match selectedSquare state with
    | Some selected =>
        if includesSquare (getLegalMovesFrom state selected) square then
          if reachesLastRank (game_get (game state) selected) square
          then (set_pendingPromotion (Some (selected, square)) state, [])
          else makeMove state selected square None
        else own
    | None => own
    end.

(** [handlePromotion(piece)]. *)
Definition handlePromotion (state : State) (p : PieceSymbol)
  : State * list Effect :=
  match pendingPromotion state with
  | None => (state, [])
  | Some (f, t) => makeMove state f t (Some p)
  end.

(** [cancelPromotion()]. *)
Definition cancelPromotion (state : State) : State :=
  set_pendingPromotion None (set_selection None [] state).

(** The drop handler of the board, when the dropped pawn reaches its last
    rank: [useGameStore.setState({ pendingPromotion, selectedSquare: null,
    legalMoves: [] })]. *)
Definition dropPromotion (state : State) (f t : string) : State :=
  set_pendingPromotion (Some (f, t)) (set_selection None [] state).

(** [undoMove()]. *)
Definition undoMove (state : State) : State :=
  let g :=
    if isAiMode (gameMode state) then game_undo (game_undo (game state))
    else game_undo (game state) in
  let isInCheck := game_inCheck g in
  let kingSquare :=
    if isInCheck then findKingSquare (game_board g) (game_turn g) else None in
  let hist := game_history g in
  let lastHistMove := List.last (map Some hist) None in
  {|
    game := g;
    fen := game_fen g;
    history := hist;
    status := getGameStatus g;
    turn := game_turn g;
    selectedSquare := None;
    legalMoves := [];
    lastMove := match lastHistMove with
                | Some mv => Some (from mv, to mv)
                | None => None
                end;
    kingInCheck := kingSquare;
    aiThinking := false;
    gameMode := gameMode state;
    isGameStarted := isGameStarted state;
    showLegalMoves := showLegalMoves state;
    pendingPromotion := pendingPromotion state;
    aiEnabled := aiEnabled state;
    aiDepth := aiDepth state;
    theme := theme state;
    soundEnabled := soundEnabled state
  |}.

(** [resetGame()]. *)
Definition resetGame (state : State) : State :=
  let newGame := game_new in
  {|
    game := newGame;
    fen := game_fen newGame;
    history := [];
    status := Playing;
    turn := White;
    selectedSquare := None;
    legalMoves := [];
    lastMove := None;
    kingInCheck := None;
    pendingPromotion := None;
    aiThinking := false;
    isGameStarted := false;
    gameMode := gameMode state;
    showLegalMoves := showLegalMoves state;
    aiEnabled := aiEnabled state;
    aiDepth := aiDepth state;
    theme := theme state;
    soundEnabled := soundEnabled state
  |}.

(** [startGame(mode)]. *)
Definition startGame (state : State) (mode : GameMode) : State :=
  let newGame := game_new in
  {|
    game := newGame;
    fen := game_fen newGame;
    history := [];
    status := Playing;
    turn := White;
    gameMode := mode;
    aiEnabled := isAiMode mode;
    isGameStarted := true;
    selectedSquare := None;
    legalMoves := [];
    lastMove := None;
    kingInCheck := None;
    pendingPromotion := None;
    showLegalMoves := false;
    aiThinking := false;
    aiDepth := aiDepth state;
    theme := theme state;
    soundEnabled := soundEnabled state
  |}.

(** [toggleTheme()]: the new theme, and the class of the document set to
    match. *)
Definition toggleTheme (s : State) : State * list Effect :=
  let newTheme := match theme s with Dark => Light | Light => Dark end in
  (set_settings (showLegalMoves s) (aiEnabled s) (soundEnabled s) (aiDepth s)
                newTheme s,
   [match newTheme with Dark => DarkClassAdd | Light => DarkClassRemove end]).

Definition toggleLegalMoves (s : State) : State :=
  set_settings (negb (showLegalMoves s)) (aiEnabled s) (soundEnabled s)
               (aiDepth s) (theme s) s.

Definition toggleAI (s : State) : State :=
  set_settings (showLegalMoves s) (negb (aiEnabled s)) (soundEnabled s)
               (aiDepth s) (theme s) s.

Definition toggleSound (s : State) : State :=
  set_settings (showLegalMoves s) (aiEnabled s) (negb (soundEnabled s))
               (aiDepth s) (theme s) s.

Definition setAiDepth (s : State) (depth : Z) : State :=
  set_settings (showLegalMoves s) (aiEnabled s) (soundEnabled s) depth
               (theme s) s.

(** Everything that can happen to the store: a call of one of its actions,
    the board's drop handler, or the answer of the AI arriving. *)
Inductive Action :=
| SelectSquare (square : string)
| MakeMove (f t : string) (p : option PieceSymbol)
| HandlePromotion (p : PieceSymbol)
| CancelPromotion
| DropPromotion (f t : string)
| UndoMove
| ResetGame
| StartGame (mode : GameMode)
| ToggleAI
| ToggleTheme
| ToggleSound
| ToggleLegalMoves
| SetAiDepth (depth : Z)
| AiAnswered (aiMove : option Move).

Definition step (s : State) (a : Action) : State * list Effect :=
  match a with
  | SelectSquare square => selectSquare s square
  | MakeMove f t p => makeMove s f t p
  | HandlePromotion p => handlePromotion s p
  | CancelPromotion => (cancelPromotion s, [])
  | DropPromotion f t => (dropPromotion s f t, [])
  | UndoMove => (undoMove s, [])
  | ResetGame => (resetGame s, [])
  | StartGame mode => (startGame s mode, [])
  | ToggleAI => (toggleAI s, [])
  | ToggleTheme => toggleTheme s
  | ToggleSound => (toggleSound s, [])
  | ToggleLegalMoves => (toggleLegalMoves s, [])
  | SetAiDepth depth => (setAiDepth s depth, [])
  | AiAnswered aiMove => aiAnswered s aiMove
  end.

(** The state after a sequence of actions, with everything done to the
    outside on the way. *)
Fixpoint run (s : State) (acts : list Action) : State * list Effect :=
  match acts with
  | [] => (s, [])
  | a :: rest =>
      let '(s1, e1) := step s a in
      let '(s2, e2) := run s1 rest in
      (s2, e1 ++ e2)
  end.

(** The fields copied from the game object agree with the object. *)
Definition inSync (s : State) : Prop :=
  fen s = game_fen (game s) /\
  history s = game_history (game s) /\
  status s = getGameStatus (game s) /\
  turn s = game_turn (game s) /\
  kingInCheck s =
    (if game_inCheck (game s)
     then findKingSquare (game_board (game s)) (game_turn (game s))
     else None).

(** The highlighted squares are the destinations of the selected piece in
    the position the object holds, and there are none without a selected
    piece. *)
Definition selectionCurrent (s : State) : Prop :=
  match selectedSquare s with
  | Some square => legalMoves s = getLegalMovesFrom s square
  | None => legalMoves s = []
  end.

(** What the store's literals assume of [new Chess()]: White to move, no
    move made, not in check, the game not over. *)
Definition freshGame : Prop :=
  game_turn game_new = White /\
  game_history game_new = [] /\
  game_inCheck game_new = false /\
  getGameStatus game_new = Playing.

End Store.
(* ===================================================================== *)
(** ** The worker and its dispatcher *)
(* ===================================================================== *)

Section Dispatch.

Context {Chess : Type} `{Rules Chess}.

(** The module of findBestMoveAsync with the worker it talks to.  Messages
    travel in order, each way; a promise is a number, and is settled once:
    a later call of its [resolve] does nothing. *)
Record Dispatcher := mkDispatcher {
  (** the variable [worker] is not null *)
  worker : bool;
  (** workers constructed so far *)
  created : nat;
  (** the promise whose [resolve] the worker's [onmessage] calls *)
  handler : option nat;
  (** messages posted to the worker and not yet handled by it *)
  inbox : list (string * Z);
  (** messages the worker posted, not yet delivered to [onmessage] *)
  outbox : list (option Move);
  (** the promises resolved, with their values *)
  settled : gmap nat (option Move);
  (** promises created so far *)
  promises : nat
}.

(** The module as loaded: [let worker = null]. *)
Definition noDispatcher : Dispatcher :=
  mkDispatcher false 0 None [] [] ∅ 0.

(** [findBestMoveAsync(fen, depth)]: the new promise and the state after
    the call. *)
Definition findBestMoveAsync (d : Dispatcher) (fen : string) (depth : Z)
  : nat * Dispatcher :=
  let p := promises d in
  let d1 :=
    if worker d then d
    else mkDispatcher true (S (created d)) None [] [] (settled d) (promises d) in
  (p, mkDispatcher true (created d1) (Some p)
                   (inbox d1 ++ [(fen, depth)]) (outbox d1)
                   (settled d1) (S p)).

(** [terminateAI()].  The worker is discarded with what it held. *)
Definition terminateAI (d : Dispatcher) : Dispatcher :=
  if worker d
  then mkDispatcher false (created d) None [] [] (settled d) (promises d)
  else d.

(** The worker's [self.onmessage] on its oldest message: it computes
    findBestMove and posts the result.  [None] when there is no message,
    or the computation does not finish within the fuel. *)
Definition workerOnMessage (fuel : nat) (d : Dispatcher) : option Dispatcher :=
  match inbox d with
  | [] => None
  | (fen, depth) :: rest =>
      match findBestMove fuel fen depth with
      | Some bestMove =>
          Some (mkDispatcher (worker d) (created d) (handler d) rest
                             (outbox d ++ [bestMove]) (settled d) (promises d))
      | None => None
      end
  end.

(** [resolve(v)] of the promise [p]. *)
Definition resolve (p : nat) (v : option Move) (m : gmap nat (option Move))
  : gmap nat (option Move) :=
  match m !! p with
  | Some _ => m
  | None => <[p := v]> m
  end.

(** The oldest message of the worker reaches [worker.onmessage], which
    calls the [resolve] it holds with the data.  [None] when nothing is on
    its way. *)
Definition deliver (d : Dispatcher) : option Dispatcher :=
  match outbox d with
  | [] => None
  | data :: rest =>
      Some (mkDispatcher (worker d) (created d) (handler d) (inbox d) rest
                         (match handler d with
                          | Some p => resolve p data (settled d)
                          | None => settled d
                          end)
                         (promises d))
  end.

(** What can happen: a call of findBestMoveAsync, the worker handling a
    message, a message of the worker being delivered. *)
Inductive Happening :=
| Submit (fen : string) (depth : Z)
| Work (fuel : nat)
| Deliver.

(** One happening; one that cannot take place leaves everything as it
    is. *)
Definition happen (d : Dispatcher) (h : Happening) : Dispatcher :=
  match h with
  | Submit fen depth => snd (findBestMoveAsync d fen depth)
  | Work fuel => match workerOnMessage fuel d with Some d' => d' | None => d end
  | Deliver => match deliver d with Some d' => d' | None => d end
  end.

Definition happenAll (d : Dispatcher) (hs : list Happening) : Dispatcher :=
  fold_left happen hs d.

(** Nothing posted is waiting, either way. *)
Definition idle (d : Dispatcher) : Prop := inbox d = [] /\ outbox d = [].

End Dispatch.
(** *** A chess.js stand-in for examples *)

(** A game object that accepts every move and remembers the moves made,
    latest first; the sides alternate, nobody is ever in check and the
    game never ends. *)
Definition recorderChess : ChessJs (list Move) := {|
  game_new := [];
  game_fen g := String.concat " " (map san g);
  game_turn g := if Nat.even (length g) then White else Black;
  game_get _ _ := None;
  game_moves _ _ := [];
  game_move g f t p :=
    let mv := mkMove f t Pawn None p t in Some (mv, "n"%string, mv :: g);
  game_undo g := tl g;
  game_inCheck _ := false;
  game_isCheckmate _ := false;
  game_isStalemate _ := false;
  game_isThreefoldRepetition _ := false;
  game_isInsufficientMaterial _ := false;
  game_isDraw _ := false;
  game_history g := rev g;
  game_board _ := noBoard
|}.

(** The effects that are sounds. *)
Definition isSound (e : Effect) : bool :=
  match e with
  | PlayPromoteSound | PlayCastleSound | PlayCaptureSound | PlayMoveSound
  | PlayCheckSound | PlayGameOverSoundLater => true
  | AskAI _ _ | DarkClassAdd | DarkClassRemove => false
  end.

Definition isToggleSound (a : Action) : bool :=
  match a with ToggleSound => true | _ => false end.

Section DispatchMore.

Context {Chess : Type} `{Rules Chess}.

(** What holds of the dispatcher as long as terminateAI is not called: one
    worker at most, there from the first call on; the promise the worker's
    [onmessage] resolves is the latest one created; no promise yet to be
    created is settled. *)
Definition dispatcherInvariant (d : Dispatcher) : Prop :=
  (created d <= 1)%nat /\
  (worker d = true <-> (0 < promises d)%nat) /\
  (created d = if worker d then 1%nat else 0%nat) /\
  handler d = (match promises d with O => None | S p => Some p end) /\
  (forall q, (promises d <= q)%nat -> settled d !! q = None).

(** The happenings that are not a new request and run the worker with the
    fuel [fuel]. *)
Definition noSubmit (fuel : nat) (h : Happening) : Prop :=
  h = Work fuel \/ h = Deliver.

(** The six states the dispatcher passes through once two requests were
    made on top of each other: before and after the first answer is
    delivered, with the messages still on their way. *)
Definition overlapped (c p1 : nat) (q1 q2 : string * Z) (r1 r2 : option Move)
           (st : gmap nat (option Move)) (x : Dispatcher) : Prop :=
  x = mkDispatcher true c (Some (S p1)) [q1; q2] [] st (S (S p1)) \/
  x = mkDispatcher true c (Some (S p1)) [q2] [r1] st (S (S p1)) \/
  x = mkDispatcher true c (Some (S p1)) [] [r1; r2] st (S (S p1)) \/
  x = mkDispatcher true c (Some (S p1)) [q2] [] (<[S p1 := r1]> st) (S (S p1)) \/
  x = mkDispatcher true c (Some (S p1)) [] [r2] (<[S p1 := r1]> st) (S (S p1)) \/
  x = mkDispatcher true c (Some (S p1)) [] [] (<[S p1 := r1]> st) (S (S p1)).

End DispatchMore.

Section StoreMore.

Context {G : Type} `{ChessJs G}.

Definition storeInvariant (s : State) : Prop := inSync s /\ selectionCurrent s.

End StoreMore.

(* ===================================================================== *)
(** ** Properties of the evaluator *)
(* ===================================================================== *)

Section Sums.

Lemma fold_left_add_shift {A} (f : Z -> A -> Z) (g : A -> Z) (l : list A) :
(forall s x, f s x = s + g x) ->
forall s, fold_left f l s = s + sumZ (map g l).
Proof.
intros Hf. induction l as [|x l IH]; intros s; simpl.
- lia.
- rewrite IH, Hf. lia.
Qed.

Lemma sumZ_app (l1 l2 : list Z) : sumZ (l1 ++ l2) = sumZ l1 + sumZ l2.
Proof. induction l1 as [|x l1 IH]; simpl; lia. Qed.

Lemma sumZ_flat_map {A B} (h : B -> Z) (k : A -> list B) (l : list A) :
sumZ (map h (flat_map k l)) = sumZ (map (fun x => sumZ (map h (k x))) l).
Proof.
induction l as [|x l IH]; simpl; [reflexivity|].
rewrite map_app, sumZ_app, IH. reflexivity.
Qed.

Lemma sumZ_sub {A} (f g : A -> Z) (l : list A) :
sumZ (map (fun x => f x - g x) l) = sumZ (map f l) - sumZ (map g l).
Proof. induction l as [|x l IH]; simpl; lia. Qed.

Lemma sumZ_opp {A} (f : A -> Z) (l : list A) :
sumZ (map (fun x => - f x) l) = - sumZ (map f l).
Proof. induction l as [|x l IH]; simpl; lia. Qed.

End Sums.

Lemma evalCell_contrib (b : Board) (row : nat) (score : Z) (col : nat) :
  evalCell b row score col = score + contrib row col (cell b row col).
Proof.
  unfold evalCell, contrib.
  destruct (cell b row col) as [[t []]|]; simpl; lia.
Qed.

(** evaluate adds up the contributions of the 64 cells. *)
Lemma evaluate_sum (b : Board) :
  evaluate b =
  sumZ (map (fun row => sumZ (map (fun col => contrib row col (cell b row col))
                              (seq 0 8)))
        (seq 0 8)).
Proof.
  unfold evaluate.
  rewrite (fold_left_add_shift _
         (fun row => sumZ (map (fun col => contrib row col (cell b row col))
                               (seq 0 8)))).
  - lia.
  - intros s row.
apply (fold_left_add_shift _ (fun col => contrib row col (cell b row col))).
intros s' col. apply evalCell_contrib.
Qed.

Lemma contrib_pieceAt (b : Board) (row col : nat) :
  contrib row col (cell b row col) =
  sumZ (map mirroredTerm (pieceAt White b row col))
  - sumZ (map directTerm (pieceAt Black b row col)).
Proof.
  unfold contrib, pieceAt.
  destruct (cell b row col) as [[t []]|]; simpl; lia.
Qed.


(** C2, as stated, fails: for a lone white pawn in the second row of the
    array evaluate reads the table at the mirrored index 48 (bonus 5), where
    the direct index 8 would give the bonus 50. *)
Lemma evaluate_white_direct_counterexample :
  evaluate loneWhitePawn = 105 /\
  evaluate_spec loneWhitePawn = 150 /\
  evaluate loneWhitePawn <> evaluate_spec loneWhitePawn.
Proof. vm_compute. repeat split; discriminate. Qed.

(** C2, amended: evaluate is the sum over White's pieces of material value
    plus the table entry at the vertically mirrored index [(7-row)*8+col],
    minus the sum over Black's pieces of material value plus the table entry
    at the direct index [row*8+col]; the material values are 100, 320, 330,
    500, 900 and 20000, and a positive total favours White. *)
Theorem evaluate_by_colour (b : Board) :
  evaluate b =
    sumZ (map mirroredTerm (piecesOf White b))
    - sumZ (map directTerm (piecesOf Black b))
  /\ map PIECE_VALUES [Pawn; Knight; Bishop; Rook; Queen; King]
     = [100; 320; 330; 500; 900; 20000].
Proof.
  split; [|reflexivity].
  rewrite evaluate_sum. unfold piecesOf.
  rewrite !sumZ_flat_map, <- sumZ_sub.
  f_equal. apply map_ext. intros row.
  rewrite !sumZ_flat_map, <- sumZ_sub.
  f_equal. apply map_ext. intros col.
  apply contrib_pieceAt.
Qed.

(** *** The scores stay small *)

Lemma pstAt_bound (t : PieceSymbol) (i : nat) : -50 <= pstAt t i <= 50.
Proof.
  unfold pstAt.
  destruct (nth_in_or_default i (PST_MAP t) 0) as [Hin | ->]; [|lia].
  assert (Hall : forallb (fun z => (-50 <=? z) && (z <=? 50)) (PST_MAP t) = true)
    by (destruct t; reflexivity).
  rewrite forallb_forall in Hall. apply Hall in Hin.
  apply andb_prop in Hin. destruct Hin as [Hlo Hhi].
  apply Z.leb_le in Hlo. apply Z.leb_le in Hhi. lia.
Qed.

Lemma contrib_bound (row col : nat) (o : option Piece) :
  -20050 <= contrib row col o <= 20050.
Proof.
  unfold contrib. destruct o as [[t c]|]; [|lia]. simpl.
  pose proof (pstAt_bound t (mirrorIdx row col)).
  pose proof (pstAt_bound t (idx row col)).
  destruct c, t; simpl; lia.
Qed.

Lemma sumZ_bound {A} (f : A -> Z) (B : Z) (l : list A) :
  (forall x, - B <= f x <= B) ->
  - (Z.of_nat (length l) * B) <= sumZ (map f l) <= Z.of_nat (length l) * B.
Proof.
  intros Hf. induction l as [|x l IH]; simpl sumZ; simpl map; [simpl; lia|].
  specialize (Hf x). rewrite length_cons. simpl sumZ. lia.
Qed.

(** Whatever the board, evaluate stays within 64 pieces of 20050 each, a
    range in which JavaScript's numbers are the integers. *)
Lemma evaluate_bounded (b : Board) :
  -1283200 <= evaluate b <= 1283200 /\ 1283200 < 2 ^ 53.
Proof.
  split; [|reflexivity]. rewrite evaluate_sum.
  pose proof (sumZ_bound
                (fun row => sumZ (map (fun col => contrib row col (cell b row col))
                                      (seq 0 8)))
                (8 * 20050) (seq 0 8)) as Hrows.
  simpl length in Hrows. apply Hrows. intros row.
  pose proof (sumZ_bound (fun col => contrib row col (cell b row col))
                         20050 (seq 0 8)) as Hcols.
  simpl length in Hcols. apply Hcols. intros col. apply contrib_bound.
Qed.

Lemma cell_mirror (b : Board) (row col : nat) :
  length b = 8%nat -> (row < 8)%nat ->
  cell (mirror b) row col = option_map flipPiece (cell b (7 - row) col).
Proof.
  intros Hlen Hrow. unfold cell, mirror.
  rewrite List.rev_nth by (rewrite List.length_map; lia).
  rewrite List.length_map, Hlen.
  replace (8 - S row)%nat with (7 - row)%nat by lia.
  change (@nil (option Piece))
    with (map (option_map flipPiece) (@nil (option Piece))) at 1.
  rewrite List.map_nth.
  change (@None Piece) with (option_map flipPiece (@None Piece)) at 1.
  rewrite List.map_nth. reflexivity.
Qed.

Lemma contrib_flip (row col : nat) (o : option Piece) :
  (row < 8)%nat ->
  contrib row col (option_map flipPiece o) = - contrib (7 - row) col o.
Proof.
  intros Hrow. unfold contrib, mirrorIdx, idx.
  destruct o as [[t []]|]; simpl;
    replace (7 - (7 - row))%nat with row by lia; lia.
Qed.

Lemma sumZ_rows_reversed (G : nat -> Z) :
  sumZ (map (fun row => - G (7 - row)%nat) (seq 0 8)) = - sumZ (map G (seq 0 8)).
Proof. simpl. lia. Qed.

(** C8: on a well-formed board, evaluating the colour-reversed, vertically
    mirrored position gives the negated score. *)
Theorem evaluate_mirror (b : Board) :
  wf_board b -> evaluate (mirror b) = - evaluate b.
Proof.
  intros [Hlen _]. rewrite !evaluate_sum.
  rewrite <- (sumZ_rows_reversed
                (fun row => sumZ (map (fun col => contrib row col (cell b row col))
                                      (seq 0 8)))).
  f_equal. apply map_ext_in. intros row Hrow.
  apply in_seq in Hrow.
  rewrite <- sumZ_opp. f_equal. apply map_ext. intros col.
  rewrite cell_mirror by lia. apply contrib_flip. lia.
Qed.

Example start_is_level : evaluate startBoard = 0.
Proof. reflexivity. Qed.

Lemma mateBoard_wf : wf_board mateBoard.
Proof. split; [reflexivity|]. repeat constructor. Qed.

Lemma evaluate_mirror_witness :
  wf_board mateBoard /\
  evaluate (mirror mateBoard) = - evaluate mateBoard.
Proof.
  split; [exact mateBoard_wf | exact (evaluate_mirror mateBoard mateBoard_wf)].
Defined.

(* ===================================================================== *)
(** ** Properties of the move ordering *)
(* ===================================================================== *)

Lemma insertMove_perm (a : Move) (l : list Move) :
  Permutation (a :: l) (insertMove a l).
Proof.
  induction l as [|b l IH]; simpl.
  - apply Permutation_refl.
  - destruct (compareMoves a b <=? 0).
    + apply Permutation_refl.
    + eapply perm_trans; [apply perm_swap|]. apply perm_skip, IH.
Qed.

Lemma sortMoves_perm (l : list Move) : Permutation l (sortMoves l).
Proof.
  induction l as [|a l IH]; simpl.
  - apply Permutation_refl.
  - eapply perm_trans; [apply perm_skip, IH|]. apply insertMove_perm.
Qed.

Lemma sortMoves_In (l : list Move) (m : Move) : In m (sortMoves l) <-> In m l.
Proof.
  split; apply Permutation_in;
    [apply Permutation_sym|]; apply sortMoves_perm.
Qed.

Lemma sortMoves_nil (l : list Move) : sortMoves l = [] -> l = [].
Proof.
  intros Hs. apply Permutation_nil. rewrite <- Hs.
  apply Permutation_sym, sortMoves_perm.
Qed.

Lemma insertMove_descending (a : Move) (l : list Move) :
  descending l -> descending (insertMove a l).
Proof.
  induction l as [|b l IH]; simpl; intros Hd.
  - split; [constructor | exact I].
  - destruct Hd as [Hb Hl].
    destruct (compareMoves a b <=? 0) eqn:Hc; unfold compareMoves in Hc.
    + apply Z.leb_le in Hc. simpl. repeat split; trivial.
      constructor; [lia|].
      eapply List.Forall_impl; [|exact Hb]. simpl. intros c Hcb. lia.
    + apply Z.leb_gt in Hc. simpl. split; [|apply IH, Hl].
      eapply Permutation_Forall; [apply insertMove_perm|].
      constructor; [lia | exact Hb].
Qed.

Lemma sortMoves_descending (l : list Move) : descending (sortMoves l).
Proof.
  induction l as [|a l IH]; simpl; [exact I|].
  apply insertMove_descending, IH.
Qed.

(** An array already in the order asked for is left as it is. *)
Lemma sortMoves_fixed (l : list Move) : descending l -> sortMoves l = l.
Proof.
  induction l as [|a l IH]; simpl; intros Hd; [reflexivity|].
  destruct Hd as [Ha Hl]. rewrite (IH Hl).
  destruct l as [|b l']; simpl; [reflexivity|].
  inversion Ha as [|? ? Hba _]; subst.
  unfold compareMoves.
  destruct (priority b - priority a <=? 0) eqn:Hc; [reflexivity|].
  apply Z.leb_gt in Hc. lia.
Qed.

(** Moves of equal priority keep the order they came in. *)
Lemma insertMove_stable (p : Z) (a : Move) (l : list Move) :
  List.filter (hasPriority p) (insertMove a l)
  = List.filter (hasPriority p) (a :: l).
Proof.
  induction l as [|b l IH]; [reflexivity|].
  simpl insertMove. unfold compareMoves.
  destruct (priority b - priority a <=? 0) eqn:Hc; [reflexivity|].
  apply Z.leb_gt in Hc.
  change (List.filter (hasPriority p) (b :: insertMove a l))
    with (if hasPriority p b
          then b :: List.filter (hasPriority p) (insertMove a l)
          else List.filter (hasPriority p) (insertMove a l)).
  rewrite IH. simpl. unfold hasPriority.
  destruct (priority a =? p) eqn:Ha; [|reflexivity].
  apply Z.eqb_eq in Ha.
  replace (priority b =? p) with false; [reflexivity|].
  symmetry. apply Z.eqb_neq. lia.
Qed.

Lemma sortMoves_stable (p : Z) (l : list Move) :
  List.filter (hasPriority p) (sortMoves l) = List.filter (hasPriority p) l.
Proof.
  induction l as [|a l IH]; [reflexivity|].
  simpl sortMoves. rewrite insertMove_stable. simpl. rewrite IH. reflexivity.
Qed.

(** C4, as stated, fails: the array [Kh4; Qxd8+] is reordered in place,
    the capture with check first. *)
Lemma orderMoves_input_unchanged_counterexample :
  exists h',
    orderMoves 0%nat oneArray = Some (0%nat, h') /\
    oneArray !! 0%nat = Some [kingStep; queenTakes] /\
    h' !! 0%nat = Some [queenTakes; kingStep] /\
    h' !! 0%nat <> oneArray !! 0%nat.
Proof.
  unfold orderMoves, oneArray.
  rewrite lookup_singleton_eq.
  eexists. split; [reflexivity|].
  rewrite lookup_insert_eq. repeat split. discriminate.
Qed.

(** C4, amended: orderMoves sorts the array it is given in place and returns
    that same array; after the call the array holds the same moves, each
    unmodified, rearranged in descending priority with moves of equal
    priority in the order they came in (so unchanged exactly when the
    array was in descending priority already), and no other array is
    touched. *)
Theorem orderMoves_in_place (moves : loc) (h : gmap loc (list Move))
        (l : list Move) :
  h !! moves = Some l ->
  exists h',
    orderMoves moves h = Some (moves, h') /\
    h' !! moves = Some (sortMoves l) /\
    Permutation l (sortMoves l) /\
    descending (sortMoves l) /\
    (forall p, List.filter (hasPriority p) (sortMoves l)
               = List.filter (hasPriority p) l) /\
    (sortMoves l = l <-> descending l) /\
    (forall a : loc, a <> moves -> h' !! a = h !! a).
Proof.
  intros Hl. unfold orderMoves. rewrite Hl.
  eexists. split; [reflexivity|].
  split; [apply lookup_insert_eq|].
  split; [apply sortMoves_perm|].
  split; [apply sortMoves_descending|].
  split; [intros p; apply sortMoves_stable|].
  split.
  - split; [|apply sortMoves_fixed].
    intros Heq. rewrite <- Heq. apply sortMoves_descending.
  - intros a Ha. apply lookup_insert_ne. congruence.
Qed.

(** What minimax and findBestMove get from
    [orderMoves(game.moves({ verbose: true }))]: the fresh array, sorted. *)
Lemma orderMoves_fresh (a : loc) (h : gmap loc (list Move)) (l : list Move) :
  orderMoves a (<[a := l]> h) = Some (a, <[a := sortMoves l]> h).
Proof.
  unfold orderMoves. rewrite lookup_insert_eq, insert_insert_eq. reflexivity.
Qed.

Lemma orderMoves_in_place_witness :
  exists h',
    orderMoves 0%nat oneArray = Some (0%nat, h') /\
    h' !! 0%nat = Some (sortMoves twoMoves).
Proof.
  destruct (orderMoves_in_place 0%nat oneArray twoMoves) as (h' & H1 & H2 & _).
  - apply lookup_singleton_eq.
  - exists h'. split; assumption.
Defined.

(* ===================================================================== *)
(** ** The order on scores *)
(* ===================================================================== *)

Lemma Nleb_le (a b : Num) : Nleb a b = true <-> Nle a b.
Proof.
  destruct a, b; simpl; try tauto;
    try (split; [discriminate | tauto]); apply Z.leb_le.
Qed.

Lemma Nleb_gt (a b : Num) : Nleb a b = false <-> Nlt b a.
Proof.
  destruct a, b; simpl; try tauto;
    try (split; [discriminate | tauto]);
    try (split; [reflexivity | tauto]); apply Z.leb_gt.
Qed.

Lemma Nltb_lt (a b : Num) : Nltb a b = true <-> Nlt a b.
Proof.
  destruct a, b; simpl; try tauto;
    try (split; [discriminate | tauto]); apply Z.ltb_lt.
Qed.

Lemma Nltb_ge (a b : Num) : Nltb a b = false <-> Nle b a.
Proof.
  destruct a, b; simpl; try tauto;
    try (split; [discriminate | tauto]);
    try (split; [reflexivity | tauto]); apply Z.ltb_ge.
Qed.

(** Case analysis on every score in sight; what is left is linear
    arithmetic on the finite ones. *)
Ltac num :=
  intros;
  repeat match goal with
         | x : Num |- _ =>
             destruct x; simpl in *; try contradiction; try discriminate
         end;
  repeat match goal with
         | H : Fin _ = Fin _ |- _ => injection H as H
         end;
  first [ lia | tauto | discriminate | f_equal; lia ].

Lemma Nle_refl (a : Num) : Nle a a.
Proof. num. Qed.

Lemma Nle_antisym (a b : Num) : Nle a b -> Nle b a -> a = b.
Proof. num. Qed.

Lemma Nlt_le (a b : Num) : Nlt a b -> Nle a b.
Proof. num. Qed.

Lemma Nlt_trans (a b c : Num) : Nlt a b -> Nlt b c -> Nlt a c.
Proof. num. Qed.

Lemma Nlt_le_trans (a b c : Num) : Nlt a b -> Nle b c -> Nlt a c.
Proof. num. Qed.

Lemma Nle_trans (a b c : Num) : Nle a b -> Nle b c -> Nle a c.
Proof. num. Qed.

Lemma Nle_PosInf_finite (a : Num) : isFinite a -> Nle PosInf a -> False.
Proof. num. Qed.

Lemma Nmax_comm (a b : Num) : Nmax a b = Nmax b a.
Proof. num. Qed.

Lemma Nmax_assoc (a b c : Num) : Nmax a (Nmax b c) = Nmax (Nmax a b) c.
Proof. num. Qed.

Lemma Nmin_comm (a b : Num) : Nmin a b = Nmin b a.
Proof. num. Qed.

Lemma Nmin_assoc (a b c : Num) : Nmin a (Nmin b c) = Nmin (Nmin a b) c.
Proof. num. Qed.

Lemma Nmax_finite (a b : Num) : isFinite a -> b <> PosInf -> isFinite (Nmax a b).
Proof. intros Ha Hb. destruct a, b; simpl in *; tauto. Qed.

Lemma Nmin_finite (a b : Num) : isFinite a -> b <> NegInf -> isFinite (Nmin a b).
Proof. intros Ha Hb. destruct a, b; simpl in *; tauto. Qed.

Lemma Nmin_lt (e be : Num) : Nlt e be -> Nmin be e = e.
Proof. num. Qed.

Lemma Nmin_ge (e be : Num) : Nle be e -> Nmin be e = be.
Proof. num. Qed.

Lemma listMax_perm (l l' : list Num) : Permutation l l' -> listMax l = listMax l'.
Proof.
  induction 1 as [|x l l' _ IH|x y l|l l' l'' _ IH1 _ IH2]; simpl.
  - reflexivity.
  - now rewrite IH.
  - rewrite !Nmax_assoc, (Nmax_comm y x). reflexivity.
  - now rewrite IH1.
Qed.

Lemma listMin_perm (l l' : list Num) : Permutation l l' -> listMin l = listMin l'.
Proof.
  induction 1 as [|x l l' _ IH|x y l|l l' l'' _ IH1 _ IH2]; simpl.
  - reflexivity.
  - now rewrite IH.
  - rewrite !Nmin_assoc, (Nmin_comm y x). reflexivity.
  - now rewrite IH1.
Qed.

Lemma listMax_finite (l : list Num) :
  l <> [] -> Forall isFinite l -> isFinite (listMax l).
Proof.
  induction l as [|a l IH]; intros Hne Hall; [congruence|].
  inversion Hall as [|? ? Ha Hl]; subst. simpl.
  destruct l as [|b l'].
  - simpl. destruct a; simpl in *; tauto.
  - apply Nmax_finite; [exact Ha|].
    assert (Hf : isFinite (listMax (b :: l'))) by (apply IH; [discriminate | exact Hl]).
    intros Heq. rewrite Heq in Hf. exact Hf.
Qed.

Lemma listMin_finite (l : list Num) :
  l <> [] -> Forall isFinite l -> isFinite (listMin l).
Proof.
  induction l as [|a l IH]; intros Hne Hall; [congruence|].
  inversion Hall as [|? ? Ha Hl]; subst. simpl.
  destruct l as [|b l'].
  - simpl. destruct a; simpl in *; tauto.
  - apply Nmin_finite; [exact Ha|].
    assert (Hf : isFinite (listMin (b :: l'))) by (apply IH; [discriminate | exact Hl]).
    intros Heq. rewrite Heq in Hf. exact Hf.
Qed.

(** *** The window relation *)

Lemma within_exact (alpha beta t : Num) : within alpha beta t t.
Proof. unfold within. num. Qed.

Lemma within_full (t v : Num) : within NegInf PosInf t v -> v = t.
Proof. unfold within. num. Qed.

Lemma within_max_nil (maxEval alpha beta : Num) :
  Nle maxEval alpha -> Nlt alpha beta ->
  Nle maxEval maxEval /\ within alpha beta NegInf maxEval.
Proof. unfold within. num. Qed.

Lemma within_min_nil (minEval alpha beta : Num) :
  Nle beta minEval -> Nlt alpha beta ->
  Nle minEval minEval /\ within alpha beta PosInf minEval.
Proof. unfold within. num. Qed.

(** The maximizing loop stops after a move: its score reached beta. *)
Lemma within_max_cut (maxEval alpha beta e t T : Num) :
  Nle maxEval alpha -> Nlt alpha beta -> within alpha beta t e ->
  Nle beta (Nmax alpha e) ->
  Nle maxEval (Nmax maxEval e) /\ within alpha beta (Nmax t T) (Nmax maxEval e).
Proof. unfold within. num. Qed.

(** The maximizing loop goes on with the raised alpha. *)
Lemma within_max_go (maxEval alpha beta e t T v : Num) :
  Nle maxEval alpha -> Nlt alpha beta -> within alpha beta t e ->
  Nlt (Nmax alpha e) beta ->
  (Nle (Nmax maxEval e) (Nmax alpha e) -> Nlt (Nmax alpha e) beta ->
   Nle (Nmax maxEval e) v /\ within (Nmax alpha e) beta T v) ->
  Nle maxEval v /\ within alpha beta (Nmax t T) v.
Proof. unfold within. num. Qed.

Lemma within_min_cut (minEval alpha beta e t T : Num) :
  Nle beta minEval -> Nlt alpha beta -> within alpha beta t e ->
  Nle (Nmin beta e) alpha ->
  Nle (Nmin minEval e) minEval /\ within alpha beta (Nmin t T) (Nmin minEval e).
Proof. unfold within. num. Qed.

Lemma within_min_go (minEval alpha beta e t T v : Num) :
  Nle beta minEval -> Nlt alpha beta -> within alpha beta t e ->
  Nlt alpha (Nmin beta e) ->
  (Nle (Nmin beta e) (Nmin minEval e) -> Nlt alpha (Nmin beta e) ->
   Nle v (Nmin minEval e) /\ within alpha (Nmin beta e) T v) ->
  Nle v minEval /\ within alpha beta (Nmin t T) v.
Proof. unfold within. num. Qed.

(* ===================================================================== *)
(** ** Traces and computations *)
(* ===================================================================== *)

Lemma pending_app (t1 t2 : list Event) (d : nat) :
  pending (t1 ++ t2) d =
  match pending t1 d with
  | Some d' => pending t2 d'
  | None => None
  end.
Proof.
  revert d. induction t1 as [|e t1 IH]; intros d; simpl; [reflexivity|].
  destruct e; try apply IH. destruct d; [reflexivity | apply IH].
Qed.

Lemma neutral_nil : neutral [].
Proof. intros d. reflexivity. Qed.

Lemma neutral_app (t1 t2 : list Event) :
  neutral t1 -> neutral t2 -> neutral (t1 ++ t2).
Proof. intros H1 H2 d. rewrite pending_app, H1. apply H2. Qed.

Lemma neutral_moves (t : list Event) : neutral t -> neutral (EvMoves :: t).
Proof. intros Ht d. simpl. apply Ht. Qed.

Lemma neutral_evaluate : neutral [EvEvaluate].
Proof. intros d. reflexivity. Qed.

(** A move, a neutral stretch, the undo, and a neutral rest. *)
Lemma neutral_bracket (m : Move) (t1 t2 : list Event) :
  neutral t1 -> neutral t2 ->
  neutral ([EvMove m] ++ t1 ++ [EvUndo] ++ t2).
Proof.
  intros H1 H2 d. simpl. rewrite pending_app, H1. simpl. apply H2.
Qed.

Lemma neutral_balanced (t : list Event) : neutral t -> balanced t.
Proof. intros Ht. apply Ht. Qed.

(** The standing moves are the moves played less the undos. *)
Lemma pending_count (t : list Event) (d d' : nat) :
  pending t d = Some d' ->
  (d + count isMoveEv t = d' + count isUndoEv t)%nat.
Proof.
  unfold count. revert d. induction t as [|e t IH]; intros d Hp; simpl in *.
  - injection Hp as <-. lia.
  - destruct e; simpl.
    + apply IH in Hp. lia.
    + destruct d; [discriminate|]. apply IH in Hp. lia.
    + apply IH, Hp.
    + apply IH, Hp.
Qed.

Lemma neutral_count (t : list Event) :
  neutral t -> count isMoveEv t = count isUndoEv t.
Proof. intros Ht. apply (pending_count t 0 0), Ht. Qed.

Section Computations.

Context {Chess : Type} `{Rules Chess}.

Lemma restores_weaken {A} (c : M Chess A) (g : Chess) (P Q : A -> Prop) :
  restores c g P -> (forall a, P a -> Q a) -> restores c g Q.
Proof.
  intros (a & tr & Hc & Hn & HP) HPQ. exists a, tr. auto.
Qed.

Lemma restores_ret {A} (a : A) (g : Chess) (P : A -> Prop) :
  P a -> restores (ret a) g P.
Proof.
  intros HP. exists a, [].
  split; [reflexivity | split; [apply neutral_nil | exact HP]].
Qed.

(** One turn of a loop: play [m], run [rec], take the move back, go on
    with [k]. *)
Lemma restores_bracket {A B} (m : Move) (rec : M Chess A) (k : A -> M Chess B)
      (g : Chess) (Q : A -> Prop) (P : B -> Prop) :
  undo (move g m) = g ->
  restores rec (move g m) Q ->
  (forall e, Q e -> restores (k e) g P) ->
  restores (bind (gameMove m)
                 (fun _ => bind rec (fun e => bind gameUndo (fun _ => k e)))) g P.
Proof.
  intros Hu (e & t1 & He & Hn1 & HQ) Hk.
  destruct (Hk e HQ) as (b & t2 & Hb & Hn2 & HP).
  exists b, ([EvMove m] ++ t1 ++ [EvUndo] ++ t2).
  split; [|split; [apply neutral_bracket; assumption | exact HP]].
  unfold bind, gameMove, gameUndo. rewrite He, Hu, Hb. reflexivity.
Qed.

Lemma preserves_ret {A} (a : A) (g : Chess) : preserves (ret a) g.
Proof.
  intros a' g' tr Hr. injection Hr as <- <- <-. split; [reflexivity | apply neutral_nil].
Qed.

Lemma preserves_bracket {A B} (m : Move) (rec : M Chess A) (k : A -> M Chess B)
      (g : Chess) :
  undo (move g m) = g ->
  preserves rec (move g m) ->
  (forall e, preserves (k e) g) ->
  preserves (bind (gameMove m)
                  (fun _ => bind rec (fun e => bind gameUndo (fun _ => k e)))) g.
Proof.
  intros Hu Hrec Hk b g' tr. unfold bind, gameMove, gameUndo.
  destruct (rec (move g m)) as [[[e g1] t1]|] eqn:He; [|discriminate].
  destruct (Hrec e g1 t1 He) as [-> Hn1]. rewrite Hu.
  destruct (k e g) as [[[b' g2] t2]|] eqn:Hb; [|discriminate].
  destruct (Hk e b' g2 t2 Hb) as [-> Hn2].
  intros Hr. injection Hr as <- <- <-.
  split; [reflexivity | apply neutral_bracket; assumption].
Qed.

Lemma returns_ret {A} (a : A) (g : Chess) : returns (ret a) g.
Proof. eexists. reflexivity. Qed.

Lemma returns_bracket {A B} (m : Move) (rec : M Chess A) (k : A -> M Chess B)
      (g : Chess) :
  (forall g', returns rec g') ->
  (forall e g', returns (k e) g') ->
  returns (bind (gameMove m)
                (fun _ => bind rec (fun e => bind gameUndo (fun _ => k e)))) g.
Proof.
  intros Hrec Hk. unfold returns, bind, gameMove, gameUndo.
  destruct (Hrec (move g m)) as ([[e g1] t1] & ->).
  destruct (Hk e (undo g1)) as ([[b g2] t2] & ->).
  eexists. reflexivity.
Qed.

(** *** The three loops *)

Lemma maxLoop_restores (rec : Num -> Num -> M Chess Num) (t : Move -> Num)
      (beta : Num) (g : Chess) (ms : list Move) :
  (forall m, In m ms -> undo (move g m) = g) ->
  (forall m a, In m ms ->
     restores (rec a beta) (move g m) (fun e => Nlt a beta -> within a beta (t m) e)) ->
  forall maxEval alpha,
    restores (maxLoop rec ms maxEval alpha beta) g
      (fun v => Nle maxEval alpha -> Nlt alpha beta ->
                Nle maxEval v /\ within alpha beta (listMax (map t ms)) v).
Proof.
  induction ms as [|m ms IH]; intros Hu Hrec maxEval alpha.
  - apply restores_ret. apply within_max_nil.
  - simpl.
    eapply restores_bracket;
      [apply Hu; left; reflexivity | apply Hrec; left; reflexivity |].
    intros e He. cbv zeta.
    destruct (Nleb beta (Nmax alpha e)) eqn:Hcut.
    + apply restores_ret. intros Hma Hab.
      apply Nleb_le in Hcut. apply within_max_cut; auto.
    + apply Nleb_gt in Hcut.
      eapply restores_weaken.
      * apply IH; intros; [apply Hu | apply Hrec]; right; assumption.
      * intros v Hv Hma Hab. simpl in Hv.
        apply (within_max_go maxEval alpha beta e (t m)); auto.
Qed.

Lemma minLoop_restores (rec : Num -> Num -> M Chess Num) (t : Move -> Num)
      (alpha : Num) (g : Chess) (ms : list Move) :
  (forall m, In m ms -> undo (move g m) = g) ->
  (forall m b, In m ms ->
     restores (rec alpha b) (move g m) (fun e => Nlt alpha b -> within alpha b (t m) e)) ->
  forall minEval beta,
    restores (minLoop rec ms minEval alpha beta) g
      (fun v => Nle beta minEval -> Nlt alpha beta ->
                Nle v minEval /\ within alpha beta (listMin (map t ms)) v).
Proof.
  induction ms as [|m ms IH]; intros Hu Hrec minEval beta.
  - apply restores_ret. apply within_min_nil.
  - simpl.
    eapply restores_bracket;
      [apply Hu; left; reflexivity | apply Hrec; left; reflexivity |].
    intros e He. cbv zeta.
    destruct (Nleb (Nmin beta e) alpha) eqn:Hcut.
    + apply restores_ret. intros Hma Hab.
      apply Nleb_le in Hcut. apply within_min_cut; auto.
    + apply Nleb_gt in Hcut.
      eapply restores_weaken.
      * apply IH; intros; [apply Hu | apply Hrec]; right; assumption.
      * intros v Hv Hma Hab. simpl in Hv.
        apply (within_min_go minEval alpha beta e (t m)); auto.
Qed.

Lemma firstLowest_nil (sc : Move -> Num) (bm : option Move) (be : Num) :
  firstLowest sc [] bm be (bm, be).
Proof. left. split; [reflexivity | intros m []]. Qed.

(** The move [m], scored below [be], replaces the best so far. *)
Lemma firstLowest_take (sc : Move -> Num) (m : Move) (ms : list Move)
      (bm : option Move) (be : Num) (r : option Move * Num) :
  Nlt (sc m) be ->
  firstLowest sc ms (Some m) (sc m) r ->
  firstLowest sc (m :: ms) bm be r.
Proof.
  intros Hlt [[-> Hall] | (i & m1 & Hi & -> & Hlt1 & Hbefore & Hall)]; right.
  - exists 0%nat, m. repeat split; trivial.
    + intros j m' Hj. lia.
    + intros m' [<- | Hin]; [apply Nle_refl | apply Hall, Hin].
  - exists (S i), m1. repeat split; trivial.
    + eapply Nlt_trans; eassumption.
    + intros [|j] m' Hj Hnth; simpl in Hnth.
      * injection Hnth as <-. exact Hlt1.
      * apply (Hbefore j); [lia | exact Hnth].
    + intros m' [<- | Hin]; [apply Nlt_le, Hlt1 | apply Hall, Hin].
Qed.

(** The move [m], not scored below [be], is passed over. *)
Lemma firstLowest_skip (sc : Move -> Num) (m : Move) (ms : list Move)
      (bm : option Move) (be : Num) (r : option Move * Num) :
  Nle be (sc m) ->
  firstLowest sc ms bm be r ->
  firstLowest sc (m :: ms) bm be r.
Proof.
  intros Hge [[-> Hall] | (i & m1 & Hi & -> & Hlt1 & Hbefore & Hall)].
  - left. split; [reflexivity|].
    intros m' [<- | Hin]; [exact Hge | apply Hall, Hin].
  - right. exists (S i), m1. repeat split; trivial.
    + intros [|j] m' Hj Hnth; simpl in Hnth.
      * injection Hnth as <-. eapply Nlt_le_trans; eassumption.
      * apply (Hbefore j); [lia | exact Hnth].
    + intros m' [<- | Hin]; [|apply Hall, Hin].
      apply Nlt_le. eapply Nlt_le_trans; eassumption.
Qed.

Lemma rootLoop_restores (rec : M Chess Num) (sc : Move -> Num)
      (g : Chess) (ms : list Move) :
  (forall m, In m ms -> undo (move g m) = g) ->
  (forall m, In m ms -> restores rec (move g m) (fun e => e = sc m)) ->
  forall bm be,
    restores (rootLoop rec ms bm be) g
      (fun r => firstLowest sc ms bm be r /\
                snd r = Nmin be (listMin (map sc ms))).
Proof.
  induction ms as [|m ms IH]; intros Hu Hrec bm be.
  - apply restores_ret. split; [apply firstLowest_nil|].
    simpl. destruct be; reflexivity.
  - simpl.
    eapply restores_bracket;
      [apply Hu; left; reflexivity | apply Hrec; left; reflexivity |].
    intros e ->.
    destruct (Nltb (sc m) be) eqn:Hlt.
    + apply Nltb_lt in Hlt.
      eapply restores_weaken.
      * apply IH; intros; [apply Hu | apply Hrec]; right; assumption.
      * intros r [Hr Hs]. simpl in Hr, Hs. split.
        -- apply firstLowest_take; assumption.
        -- rewrite Hs, Nmin_assoc, (Nmin_lt _ _ Hlt). reflexivity.
    + apply Nltb_ge in Hlt.
      eapply restores_weaken.
      * apply IH; intros; [apply Hu | apply Hrec]; right; assumption.
      * intros r [Hr Hs]. simpl in Hr, Hs. split.
        -- apply firstLowest_skip; assumption.
        -- rewrite Hs, Nmin_assoc, (Nmin_ge _ _ Hlt). reflexivity.
Qed.

Lemma maxLoop_preserves (rec : Num -> Num -> M Chess Num) (g : Chess)
      (ms : list Move) :
  (forall m, In m ms -> undo (move g m) = g) ->
  (forall m a b, In m ms -> preserves (rec a b) (move g m)) ->
  forall maxEval alpha beta, preserves (maxLoop rec ms maxEval alpha beta) g.
Proof.
  induction ms as [|m ms IH]; intros Hu Hrec maxEval alpha beta; simpl.
  - apply preserves_ret.
  - apply preserves_bracket;
      [apply Hu; left; reflexivity | apply Hrec; left; reflexivity |].
    intros e. cbv zeta. destruct (Nleb beta (Nmax alpha e)).
    + apply preserves_ret.
    + apply IH; intros; [apply Hu | apply Hrec]; right; assumption.
Qed.

Lemma minLoop_preserves (rec : Num -> Num -> M Chess Num) (g : Chess)
      (ms : list Move) :
  (forall m, In m ms -> undo (move g m) = g) ->
  (forall m a b, In m ms -> preserves (rec a b) (move g m)) ->
  forall minEval alpha beta, preserves (minLoop rec ms minEval alpha beta) g.
Proof.
  induction ms as [|m ms IH]; intros Hu Hrec minEval alpha beta; simpl.
  - apply preserves_ret.
  - apply preserves_bracket;
      [apply Hu; left; reflexivity | apply Hrec; left; reflexivity |].
    intros e. cbv zeta. destruct (Nleb (Nmin beta e) alpha).
    + apply preserves_ret.
    + apply IH; intros; [apply Hu | apply Hrec]; right; assumption.
Qed.

Lemma rootLoop_preserves (rec : M Chess Num) (g : Chess) (ms : list Move) :
  (forall m, In m ms -> undo (move g m) = g) ->
  (forall m, In m ms -> preserves rec (move g m)) ->
  forall bm be, preserves (rootLoop rec ms bm be) g.
Proof.
  induction ms as [|m ms IH]; intros Hu Hrec bm be; simpl.
  - apply preserves_ret.
  - apply preserves_bracket;
      [apply Hu; left; reflexivity | apply Hrec; left; reflexivity |].
    intros e. destruct (Nltb e be);
      apply IH; intros; first [apply Hu | apply Hrec]; right; assumption.
Qed.

Lemma maxLoop_returns (rec : Num -> Num -> M Chess Num) (ms : list Move) :
  (forall a b g, returns (rec a b) g) ->
  forall maxEval alpha beta g, returns (maxLoop rec ms maxEval alpha beta) g.
Proof.
  intros Hrec. induction ms as [|m ms IH]; intros maxEval alpha beta g; simpl.
  - apply returns_ret.
  - apply returns_bracket; [intros; apply Hrec|].
    intros e g'. cbv zeta. destruct (Nleb beta (Nmax alpha e)).
    + apply returns_ret.
    + apply IH.
Qed.

Lemma minLoop_returns (rec : Num -> Num -> M Chess Num) (ms : list Move) :
  (forall a b g, returns (rec a b) g) ->
  forall minEval alpha beta g, returns (minLoop rec ms minEval alpha beta) g.
Proof.
  intros Hrec. induction ms as [|m ms IH]; intros minEval alpha beta g; simpl.
  - apply returns_ret.
  - apply returns_bracket; [intros; apply Hrec|].
    intros e g'. cbv zeta. destruct (Nleb (Nmin beta e) alpha).
    + apply returns_ret.
    + apply IH.
Qed.

Lemma rootLoop_returns (rec : M Chess Num) (ms : list Move) :
  (forall g, returns rec g) ->
  forall bm be g, returns (rootLoop rec ms bm be) g.
Proof.
  intros Hrec. induction ms as [|m ms IH]; intros bm be g; simpl.
  - apply returns_ret.
  - apply returns_bracket; [exact Hrec|].
    intros e g'. destruct (Nltb e be); apply IH.
Qed.

End Computations.

(* ===================================================================== *)
(** ** minimax and findBestMove *)
(* ===================================================================== *)

Section Search.

Context {Chess : Type} `{Rules Chess}.

(** One call of minimax, the test [depth === 0 || game.isGameOver()]
    first. *)
Lemma minimax_S (fuel : nat) (depth : Z) (alpha beta : Num) (mx : bool) (g : Chess) :
  minimax (S fuel) depth alpha beta mx g =
  if (depth =? 0) || isGameOver g then gameEvaluate g
  else bind orderedMoves
         (fun ms =>
            if mx
            then maxLoop (fun a b => minimax fuel (depth - 1) a b false) ms NegInf alpha beta
            else minLoop (fun a b => minimax fuel (depth - 1) a b true) ms PosInf alpha beta)
         g.
Proof.
  simpl. unfold bind at 1.
  destruct (depth =? 0); simpl; [reflexivity|].
  destruct (isGameOver g); [reflexivity|].
  match goal with
  | |- match ?c with _ => _ end = _ => destruct c as [[[? ?] ?]|]; reflexivity
  end.
Qed.

Lemma restores_ordered {A} (k : list Move -> M Chess A) (g : Chess) (P : A -> Prop) :
  restores (k (sortMoves (moves g))) g P -> restores (bind orderedMoves k) g P.
Proof.
  intros (a & tr & Hk & Hn & HP). exists a, (EvMoves :: tr).
  split; [|split; [apply neutral_moves, Hn | exact HP]].
  unfold bind, orderedMoves, gameMoves, ret. simpl. rewrite Hk. reflexivity.
Qed.

Lemma preserves_ordered {A} (k : list Move -> M Chess A) (g : Chess) :
  preserves (k (sortMoves (moves g))) g -> preserves (bind orderedMoves k) g.
Proof.
  intros Hk a g' tr. unfold bind, orderedMoves, gameMoves, ret. simpl.
  destruct (k (sortMoves (moves g)) g) as [[[a' g1] t1]|] eqn:Hr; [|discriminate].
  destruct (Hk a' g1 t1 Hr) as [-> Hn].
  intros Heq. injection Heq as <- <- <-.
  split; [reflexivity | apply neutral_moves, Hn].
Qed.

Lemma returns_ordered {A} (k : list Move -> M Chess A) (g : Chess) :
  returns (k (sortMoves (moves g))) g -> returns (bind orderedMoves k) g.
Proof.
  intros ([[a g1] t1] & Hk). unfold returns, bind, orderedMoves, gameMoves, ret.
  simpl. rewrite Hk. eexists. reflexivity.
Qed.

Lemma to_nat_pred (depth : Z) :
  0 <= depth -> (depth =? 0) = false ->
  Z.to_nat depth = S (Z.to_nat (depth - 1)) /\ 0 <= depth - 1.
Proof. intros H0 Hd. apply Z.eqb_neq in Hd. lia. Qed.

(** minimax returns whenever the fuel exceeds a non-negative depth: each
    nested call has one unit of depth less, and the calls stop at 0. *)
Lemma minimax_returns (fuel : nat) :
  forall depth alpha beta mx g,
    0 <= depth -> (Z.to_nat depth < fuel)%nat ->
    returns (minimax fuel depth alpha beta mx) g.
Proof.
  induction fuel as [|fuel IH]; intros depth alpha beta mx g H0 Hf; [lia|].
  unfold returns. rewrite minimax_S.
  destruct (depth =? 0) eqn:Hd; simpl; [eexists; reflexivity|].
  destruct (isGameOver g); [eexists; reflexivity|].
  destruct (to_nat_pred depth H0 Hd) as [Hn H1].
  apply returns_ordered.
  destruct mx; [apply maxLoop_returns | apply minLoop_returns];
    intros; apply IH; lia.
Qed.

Section Reversible.

Hypothesis Hundo : undo_restores.

Lemma undo_sorted (g : Chess) (m : Move) :
  In m (sortMoves (moves g)) -> undo (move g m) = g.
Proof. intros Hin. apply Hundo, sortMoves_In, Hin. Qed.

(** Whenever minimax returns, whatever its arguments, the game object is
    as it was. *)
Lemma minimax_preserves (fuel : nat) :
  forall depth alpha beta mx g, preserves (minimax fuel depth alpha beta mx) g.
Proof.
  induction fuel as [|fuel IH]; intros depth alpha beta mx g.
  - intros a g' tr Hr. discriminate.
  - intros a g' tr. rewrite minimax_S.
    destruct ((depth =? 0) || isGameOver g).
    + unfold gameEvaluate. intros Hr. injection Hr as <- <- <-.
      split; [reflexivity | apply neutral_evaluate].
    + apply preserves_ordered.
      destruct mx; [apply maxLoop_preserves | apply minLoop_preserves];
        intros; first [apply undo_sorted; assumption | apply IH].
Qed.

Lemma search_preserves (fuel : nat) (depth : Z) (g : Chess) :
  preserves (search fuel depth) g.
Proof.
  unfold search. apply preserves_ordered.
  destruct (length (sortMoves (moves g)) =? 0)%nat.
  - apply preserves_ret.
  - apply rootLoop_preserves; intros;
      [apply undo_sorted; assumption | apply minimax_preserves].
Qed.

(** With enough fuel for its depth, minimax returns, leaves the game object
    as it was, and its value stands to the unpruned value as the window
    allows. *)
Lemma minimax_restores (fuel : nat) :
  forall depth alpha beta mx g,
    0 <= depth -> (Z.to_nat depth < fuel)%nat ->
    restores (minimax fuel depth alpha beta mx) g
      (fun v => Nlt alpha beta ->
                within alpha beta (fullMinimax (Z.to_nat depth) g mx) v).
Proof.
  induction fuel as [|fuel IH]; intros depth alpha beta mx g H0 Hf; [lia|].
  unfold restores. rewrite minimax_S.
  destruct (depth =? 0) eqn:Hd; simpl.
  - apply Z.eqb_eq in Hd. subst depth. simpl.
    eexists _, _. split; [reflexivity|].
    split; [apply neutral_evaluate | intros _; apply within_exact].
  - destruct (to_nat_pred depth H0 Hd) as [Hn H1]. rewrite Hn. simpl.
    destruct (isGameOver g).
    + eexists _, _. split; [reflexivity|].
      split; [apply neutral_evaluate | intros _; apply within_exact].
    + apply restores_ordered. destruct mx.
      * eapply restores_weaken.
        -- apply (maxLoop_restores _
                    (fun m => fullMinimax (Z.to_nat (depth - 1)) (move g m) false)).
           ++ apply undo_sorted.
           ++ intros m a _. apply IH; lia.
        -- intros v Hv Hab. simpl in Hv.
           rewrite (listMax_perm _ _
                      (Permutation_map _ (sortMoves_perm (moves g)))).
           apply Hv; [exact I | exact Hab].
      * eapply restores_weaken.
        -- apply (minLoop_restores _
                    (fun m => fullMinimax (Z.to_nat (depth - 1)) (move g m) true)).
           ++ apply undo_sorted.
           ++ intros m b _. apply IH; lia.
        -- intros v Hv Hab. simpl in Hv.
           rewrite (listMin_perm _ _
                      (Permutation_map _ (sortMoves_perm (moves g)))).
           apply Hv; [destruct beta; exact I | exact Hab].
Qed.

(** With the full window the value is the unpruned one. *)
Lemma minimax_full (fuel : nat) (depth : Z) (mx : bool) (g : Chess) :
  0 <= depth -> (Z.to_nat depth < fuel)%nat ->
  restores (minimax fuel depth NegInf PosInf mx) g
    (fun v => v = fullMinimax (Z.to_nat depth) g mx).
Proof.
  intros H0 Hf. eapply restores_weaken; [apply minimax_restores; assumption|].
  intros v Hv. apply within_full, Hv. exact I.
Qed.

Lemma rootScore_full (fuel : nat) (depth : Z) (g : Chess) (m : Move) :
  1 <= depth -> (Z.to_nat depth <= fuel)%nat ->
  rootScore fuel depth g m = Some (fullMinimax (Z.to_nat (depth - 1)) (move g m) true).
Proof.
  intros H1 Hf. unfold rootScore.
  destruct (minimax_full fuel (depth - 1) true (move g m)) as (v & tr & -> & _ & ->);
    [lia | lia | reflexivity].
Qed.

(** findBestMove's loop over the ordered root moves, each scored by the
    unpruned value of the position it leads to. *)
Lemma search_restores (fuel : nat) (depth : Z) (g : Chess) :
  1 <= depth -> (Z.to_nat depth <= fuel)%nat ->
  let sc := fun m => fullMinimax (Z.to_nat (depth - 1)) (move g m) true in
  restores (search fuel depth) g
    (fun r => firstLowest sc (sortMoves (moves g)) None PosInf r /\
              snd r = listMin (map sc (moves g))).
Proof.
  intros H1 Hf sc. unfold search. apply restores_ordered.
  assert (Hmin : listMin (map sc (sortMoves (moves g))) = listMin (map sc (moves g))).
  { symmetry. apply listMin_perm, Permutation_map, sortMoves_perm. }
  destruct (sortMoves (moves g)) as [|m0 ms] eqn:Hs.
  - simpl. apply restores_ret. split; [apply firstLowest_nil|].
    rewrite <- Hmin. reflexivity.
  - rewrite <- Hs in *.
    replace (length (sortMoves (moves g)) =? 0)%nat with false
      by (rewrite Hs; reflexivity).
    eapply restores_weaken.
    + apply (rootLoop_restores _ sc).
      * apply undo_sorted.
      * intros m _. apply minimax_full; lia.
    + intros r [Hr Hsnd]. simpl in Hr, Hsnd. split; [exact Hr|].
      rewrite Hsnd, Hmin. destruct (listMin (map sc (moves g))); reflexivity.
Qed.

End Reversible.

Lemma findBestMove_search (fuel : nat) (fen : string) (depth : Z)
      (r : option Move * Num) (g' : Chess) (tr : list Event) :
  search fuel depth (newChess fen) = Some (r, g', tr) ->
  findBestMove fuel fen depth = Some (fst r).
Proof. intros Hs. unfold findBestMove. rewrite Hs. reflexivity. Qed.

Lemma reachable_step (g g' : Chess) (m : Move) :
  In m (moves g) -> reachable (move g m) g' -> reachable g g'.
Proof.
  intros Hin Hr. induction Hr as [|g1 m1 _ IH Hm1].
  - apply reach_move; [apply reach_here | exact Hin].
  - apply reach_move; assumption.
Qed.

Lemma no_moves_is_over_step (g : Chess) (m : Move) :
  In m (moves g) -> no_moves_is_over g -> no_moves_is_over (move g m).
Proof.
  intros Hin Hg g' Hr. apply Hg. eapply reachable_step; eassumption.
Qed.

(** If positions without a legal move count as finished, the unpruned
    value is a number: no maximum or minimum is taken over nothing. *)
Lemma fullMinimax_finite (n : nat) :
  forall g mx, no_moves_is_over g -> isFinite (fullMinimax n g mx).
Proof.
  induction n as [|n IH]; intros g mx Hg; simpl; [exact I|].
  destruct (isGameOver g) eqn:Hover; [exact I|].
  assert (Hne : moves g <> []).
  { intros Hnil. rewrite (Hg g (reach_here g) Hnil) in Hover. discriminate. }
  destruct mx; [apply listMax_finite | apply listMin_finite];
    try (intros Hnil; apply map_eq_nil in Hnil; contradiction);
    apply List.Forall_forall; intros x Hx; apply in_map_iff in Hx;
    destruct Hx as (m & <- & Hm); apply IH, no_moves_is_over_step; assumption.
Qed.

End Search.

(* ===================================================================== *)
(** ** The table-driven engine keeps the contract *)
(* ===================================================================== *)

Lemma symbolEqb_refl (t : PieceSymbol) : symbolEqb t t = true.
Proof. destruct t; reflexivity. Qed.

Lemma sameMove_refl (m : Move) : sameMove m m = true.
Proof.
  unfold sameMove. rewrite !String.eqb_refl. simpl.
  destruct (promotion m); [apply symbolEqb_refl | reflexivity].
Qed.

Lemma findKid_listed (m : Move) (kids : list (Move * Tree)) :
  In m (map fst kids) -> exists k, findKid m kids = Some k.
Proof.
  induction kids as [|[m' k] kids IH]; simpl; [intros []|].
  intros [-> | Hin].
  - rewrite sameMove_refl. eauto.
  - destruct (sameMove m m'); eauto.
Qed.

Lemma treeRules_undo (root : string -> Tree) : @undo_restores _ (treeRules root).
Proof.
  intros g m Hin. simpl in *. unfold treeMove.
  destruct (findKid_listed m _ Hin) as [k ->].
  destruct g; reflexivity.
Qed.

Lemma allNodes_here (p : Tree -> bool) (t : Tree) :
  allNodes p t = true -> p t = true.
Proof. destruct t; simpl. intros Hall. apply andb_prop in Hall. tauto. Qed.

Lemma allNodes_kid (p : Tree -> bool) (t k : Tree) (m : Move) :
  allNodes p t = true -> findKid m (treeKids t) = Some k -> allNodes p k = true.
Proof.
  destruct t as [b o mt kids]; simpl. intros Hall.
  apply andb_prop in Hall. destruct Hall as [_ Hkids].
  induction kids as [|[m' k'] kids IH]; simpl; [discriminate|].
  apply andb_prop in Hkids. destruct Hkids as [Hk' Hrest].
  destruct (sameMove m m').
  - intros Heq. injection Heq as <-. exact Hk'.
  - apply IH, Hrest.
Qed.

Lemma allNodes_reachable (root : string -> Tree) (p : Tree -> bool)
      (g g' : TreeGame) :
  allNodes p (cur g) = true ->
  @reachable _ (treeRules root) g g' ->
  allNodes p (cur g') = true.
Proof.
  intros Hg Hr. induction Hr as [|g1 m _ IH Hin]; [exact Hg|].
  simpl in *. unfold treeMove.
  destruct (findKid_listed m _ Hin) as [k Hk]. rewrite Hk. simpl.
  eapply allNodes_kid; eassumption.
Qed.

Lemma treeRules_no_moves (root : string -> Tree) (g : TreeGame) :
  allNodes noMoveIsOver (cur g) = true ->
  @no_moves_is_over _ (treeRules root) g.
Proof.
  intros Hg g' Hr Hnil.
  apply (allNodes_reachable root _ _ _ Hg), allNodes_here in Hr.
  simpl in *. unfold noMoveIsOver in Hr.
  destruct (treeKids (cur g')); [exact Hr | discriminate].
Qed.

Lemma treeRules_checkmate (root : string -> Tree) (g : TreeGame) :
  allNodes mateIsOver (cur g) = true ->
  @checkmate_is_over _ (treeRules root) g.
Proof.
  intros Hg g' Hr Hmate.
  apply (allNodes_reachable root _ _ _ Hg), allNodes_here in Hr.
  simpl in *. unfold mateIsOver in Hr. rewrite Hmate in Hr. exact Hr.
Qed.

(* ===================================================================== *)
(** ** The properties of the specification *)
(* ===================================================================== *)

Section Claims.

Context {Chess : Type} `{Rules Chess}.

Lemma fullMinimax_over (n : nat) (g : Chess) (mx : bool) :
  isGameOver g = true -> fullMinimax n g mx = Fin (evaluate (board g)).
Proof. intros Hover. destruct n; simpl; [|rewrite Hover]; reflexivity. Qed.

(** If some root move has a score below Infinity, the search keeps the
    first of the ordered moves with the lowest score. *)
Lemma search_first_lowest (fuel : nat) (depth : Z) (g : Chess) (m0 : Move) :
  undo_restores ->
  1 <= depth -> (Z.to_nat depth <= fuel)%nat ->
  let sc := fun m => fullMinimax (Z.to_nat (depth - 1)) (move g m) true in
  In m0 (moves g) -> Nlt (sc m0) PosInf ->
  exists i m tr,
    search fuel depth g = Some ((Some m, sc m), g, tr) /\
    nth_error (sortMoves (moves g)) i = Some m /\
    (forall j m', (j < i)%nat -> nth_error (sortMoves (moves g)) j = Some m' ->
                  Nlt (sc m) (sc m')) /\
    (forall m', In m' (moves g) -> Nle (sc m) (sc m')).
Proof.
  intros Hundo H1 Hf sc Hin Hlt.
  destruct (search_restores Hundo fuel depth g H1 Hf)
    as (r & tr & Hs & _ & Hr & _).
  fold sc in Hr.
  destruct Hr as [[-> Hall] | (i & m & Hi & -> & _ & Hbefore & Hall)].
  - exfalso. apply sortMoves_In in Hin. specialize (Hall m0 Hin).
    destruct (sc m0); simpl in *; contradiction.
  - exists i, m, tr. repeat split; trivial.
    intros m' Hm'. apply Hall, sortMoves_In, Hm'.
Qed.

(** C1: with fuel for the depth, every root move's score from the pruned
    minimax is the value of the unpruned minimax of the position after the
    move, and so is the value of any full-window call at any position; the
    score findBestMove ends with is the minimum of the unpruned values over
    the root moves. *)
Theorem alpha_beta_equivalence (fen : string) (depth : Z) (fuel : nat) :
  undo_restores ->
  1 <= depth -> (Z.to_nat depth <= fuel)%nat ->
  let g := newChess fen in
  (forall m,
      rootScore fuel depth g m
      = Some (fullMinimax (Z.to_nat (depth - 1)) (move g m) true)) /\
  (forall (g' : Chess) (d : Z) (mx : bool),
      0 <= d -> d < depth ->
      exists tr,
        minimax fuel d NegInf PosInf mx g'
        = Some (fullMinimax (Z.to_nat d) g' mx, g', tr)) /\
  (exists bm tr,
      search fuel depth g
      = Some ((bm, listMin (map (fun m => fullMinimax (Z.to_nat (depth - 1))
                                                      (move g m) true)
                                (moves g))),
              g, tr)).
Proof.
  intros Hundo H1 Hf g. split; [|split].
  - intros m. apply rootScore_full; assumption.
  - intros g' d mx H0 Hd.
    destruct (minimax_full Hundo fuel d mx g') as (v & tr & Hm & _ & ->);
      [lia | lia | eauto].
  - destruct (search_restores Hundo fuel depth g H1 Hf)
      as ([bm be] & tr & Hs & _ & _ & Hsnd).
    simpl in Hsnd. subst be. eauto.
Qed.

(** C3: if the root has a legal move and positions without a legal move
    count as finished, findBestMove returns the first move, in the ordered
    sequence, whose minimax score is the lowest: no move scores lower and
    every earlier move scores strictly higher. *)
Theorem findBestMove_first_lowest (fen : string) (depth : Z) (fuel : nat) :
  undo_restores ->
  1 <= depth -> (Z.to_nat depth <= fuel)%nat ->
  let g := newChess fen in
  moves g <> [] -> no_moves_is_over g ->
  exists i m s,
    findBestMove fuel fen depth = Some (Some m) /\
    nth_error (sortMoves (moves g)) i = Some m /\
    rootScore fuel depth g m = Some s /\
    forall j m',
      nth_error (sortMoves (moves g)) j = Some m' ->
      exists s',
        rootScore fuel depth g m' = Some s' /\
        Nle s s' /\ ((j < i)%nat -> Nlt s s').
Proof.
  intros Hundo H1 Hf g Hne Hover.
  destruct (moves g) as [|m0 rest] eqn:Hms; [congruence|].
  assert (Hin : In m0 (moves g)) by (rewrite Hms; left; reflexivity).
  assert (Hfin : Nlt (fullMinimax (Z.to_nat (depth - 1)) (move g m0) true) PosInf).
  { pose proof (fullMinimax_finite (Z.to_nat (depth - 1)) (move g m0) true
                  (no_moves_is_over_step g m0 Hin Hover)) as Hfin.
    destruct (fullMinimax _ _ _); simpl in *; tauto. }
  destruct (search_first_lowest fuel depth g m0 Hundo H1 Hf Hin Hfin)
    as (i & m & tr & Hs & Hi & Hbefore & Hall).
  rewrite <- Hms.
  exists i, m, (fullMinimax (Z.to_nat (depth - 1)) (move g m) true).
  split; [apply (findBestMove_search _ _ _ _ _ _ Hs)|].
  split; [exact Hi|].
  split; [apply rootScore_full; assumption|].
  intros j m' Hj. eexists.
  split; [apply rootScore_full; assumption|].
  split.
  - apply Hall, sortMoves_In. eapply nth_error_In, Hj.
  - intros Hlt. eapply Hbefore; eassumption.
Qed.

(** C5, amended: when a root move gives checkmate, its score is the static
    evaluation of the position after it, whatever the depth, and
    findBestMove returns a legal move whose score is at most that one. *)
Theorem mate_scored_statically (fen : string) (depth : Z) (fuel : nat)
        (mate : Move) :
  undo_restores ->
  1 <= depth -> (Z.to_nat depth <= fuel)%nat ->
  let g := newChess fen in
  checkmate_is_over g ->
  In mate (moves g) -> isCheckmate (move g mate) = true ->
  rootScore fuel depth g mate = Some (Fin (evaluate (board (move g mate)))) /\
  exists m s,
    findBestMove fuel fen depth = Some (Some m) /\
    In m (moves g) /\
    rootScore fuel depth g m = Some s /\
    Nle s (Fin (evaluate (board (move g mate)))).
Proof.
  intros Hundo H1 Hf g Hlaw Hin Hmate.
  assert (Hover : isGameOver (move g mate) = true).
  { apply Hlaw; [|exact Hmate]. apply reach_move; [apply reach_here | exact Hin]. }
  assert (Hsc : fullMinimax (Z.to_nat (depth - 1)) (move g mate) true
                = Fin (evaluate (board (move g mate))))
    by (apply fullMinimax_over, Hover).
  split; [rewrite <- Hsc; apply rootScore_full; assumption|].
  destruct (search_first_lowest fuel depth g mate Hundo H1 Hf Hin)
    as (i & m & tr & Hs & Hi & _ & Hall).
  { rewrite Hsc. exact I. }
  exists m, (fullMinimax (Z.to_nat (depth - 1)) (move g m) true).
  split; [apply (findBestMove_search _ _ _ _ _ _ Hs)|].
  split; [eapply sortMoves_In, nth_error_In, Hi|].
  split; [apply rootScore_full; assumption|].
  rewrite <- Hsc. apply Hall, Hin.
Qed.

(** C6: at a root without a legal move findBestMove returns null, whatever
    the depth, having asked the engine for the moves and nothing else:
    evaluate is not called. *)
Theorem no_legal_move_no_evaluate (fen : string) (depth : Z) (fuel : nat) :
  moves (newChess fen) = [] ->
  findBestMove fuel fen depth = Some None /\
  exists r tr,
    search fuel depth (newChess fen) = Some (r, newChess fen, tr) /\
    fst r = None /\
    count isEvaluate tr = 0%nat.
Proof.
  intros Hnil.
  assert (Hs : search fuel depth (newChess fen)
               = Some ((None, PosInf), newChess fen, [EvMoves])).
  { unfold search, orderedMoves, bind, gameMoves, ret. rewrite Hnil. reflexivity. }
  split; [apply (findBestMove_search _ _ _ _ _ _ Hs)|].
  eexists _, _. split; [exact Hs|]. split; reflexivity.
Qed.

(** C7: whenever minimax or the body of findBestMove returns, the game
    object is in the state it was called in, each undo has taken back the
    latest move still standing and none is left (so moves and undos are
    equal in number), whether or not a cutoff ended a loop early; and with
    fuel for the depth both do return. *)
Theorem search_restores_position (g : Chess) (depth : Z) (fuel : nat) :
  undo_restores ->
  (forall alpha beta mx v g' tr,
      minimax fuel depth alpha beta mx g = Some (v, g', tr) ->
      g' = g /\ balanced tr /\ count isMoveEv tr = count isUndoEv tr) /\
  (forall r g' tr,
      search fuel depth g = Some (r, g', tr) ->
      g' = g /\ balanced tr /\ count isMoveEv tr = count isUndoEv tr) /\
  (0 <= depth -> (Z.to_nat depth < fuel)%nat ->
   forall alpha beta mx,
   exists v tr, minimax fuel depth alpha beta mx g = Some (v, g, tr)) /\
  (1 <= depth -> (Z.to_nat depth <= fuel)%nat ->
   exists r tr, search fuel depth g = Some (r, g, tr)).
Proof.
  intros Hundo. repeat split.
  - eapply minimax_preserves; eassumption.
  - apply neutral_balanced. eapply minimax_preserves; eassumption.
  - apply neutral_count. eapply minimax_preserves; eassumption.
  - eapply search_preserves; eassumption.
  - apply neutral_balanced. eapply search_preserves; eassumption.
  - apply neutral_count. eapply search_preserves; eassumption.
  - intros H0 Hf alpha beta mx.
    destruct (minimax_restores Hundo fuel depth alpha beta mx g H0 Hf)
      as (v & tr & Hm & _). eauto.
  - intros H1 Hf.
    destruct (search_restores Hundo fuel depth g H1 Hf) as (r & tr & Hs & _).
    eauto.
Qed.

(** C9: for a depth of at least 1 findBestMove returns, a move or null, as
    soon as the fuel covers the depth: every nested call of minimax has a
    depth one less, and a call at depth 0 (or at a finished game) makes no
    further call.  The engine's operations are total functions. *)
Theorem findBestMove_terminates (fen : string) (depth : Z) (fuel : nat) :
  1 <= depth -> (Z.to_nat depth <= fuel)%nat ->
  (exists r, findBestMove fuel fen depth = Some r) /\
  (forall g d alpha beta mx,
      0 <= d -> d < depth ->
      exists r, minimax fuel d alpha beta mx g = Some r).
Proof.
  intros H1 Hf. split.
  - assert (Hs : returns (search fuel depth) (newChess fen)).
    { unfold search. apply returns_ordered.
      destruct (length (sortMoves (moves (newChess fen))) =? 0)%nat.
      - apply returns_ret.
      - apply rootLoop_returns. intros g. apply minimax_returns; lia. }
    destruct Hs as ([[r g'] tr] & Hs).
    exists (fst r). apply (findBestMove_search _ _ _ _ _ _ Hs).
  - intros g d alpha beta mx H0 Hd. apply minimax_returns; lia.
Qed.

(** C10: if the root has a legal move and every reachable position without
    a legal move is reported over, findBestMove returns a move, and the
    move is one of the engine's legal moves at the root. *)
Theorem findBestMove_legal (fen : string) (depth : Z) (fuel : nat) :
  undo_restores ->
  1 <= depth -> (Z.to_nat depth <= fuel)%nat ->
  let g := newChess fen in
  moves g <> [] -> no_moves_is_over g ->
  exists m, findBestMove fuel fen depth = Some (Some m) /\ In m (moves g).
Proof.
  intros Hundo H1 Hf g Hne Hover.
  destruct (moves g) as [|m0 rest] eqn:Hms; [congruence|].
  assert (Hin : In m0 (moves g)) by (rewrite Hms; left; reflexivity).
  assert (Hfin : Nlt (fullMinimax (Z.to_nat (depth - 1)) (move g m0) true) PosInf).
  { pose proof (fullMinimax_finite (Z.to_nat (depth - 1)) (move g m0) true
                  (no_moves_is_over_step g m0 Hin Hover)) as Hfin.
    destruct (fullMinimax _ _ _); simpl in *; tauto. }
  destruct (search_first_lowest fuel depth g m0 Hundo H1 Hf Hin Hfin)
    as (i & m & tr & Hs & Hi & _).
  rewrite <- Hms. exists m.
  split; [apply (findBestMove_search _ _ _ _ _ _ Hs)|].
  eapply sortMoves_In, nth_error_In, Hi.
Qed.

End Claims.

(* ===================================================================== *)
(** ** The properties at concrete positions *)
(* ===================================================================== *)

(** The root of the two-ply table and of the mate-in-one table. *)
Lemma twoPly_sound : allNodes noMoveIsOver twoPly = true.
Proof. reflexivity. Qed.

Lemma mateTree_mates_over : allNodes mateIsOver mateTree = true.
Proof. reflexivity. Qed.

(** Depth 2 on the hand-made tree: the score is the minimum over the two
    root moves of the maximum over the replies, 0 = min (max 105 150)
    (max (-150) 0), and the move kept is the second one. *)
Example two_ply_by_hand :
  exists tr,
    @search _ twoPlyRules 2 2 (@newChess _ twoPlyRules "")
    = Some ((Some (quiet "b7" "b6"), Fin 0), @newChess _ twoPlyRules "", tr)
    /\ Fin 0 = listMin [listMax [Fin 105; Fin 150]; listMax [Fin (-150); Fin 0]].
Proof. eexists. split; vm_compute; reflexivity. Qed.

Lemma alpha_beta_equivalence_witness :
  exists bm tr,
    @search _ twoPlyRules 2 2 (@newChess _ twoPlyRules "")
    = Some ((bm, listMin [listMax [Fin 105; Fin 150];
                          listMax [Fin (-150); Fin 0]]),
            @newChess _ twoPlyRules "", tr).
Proof.
  exact (proj2 (proj2 (@alpha_beta_equivalence _ twoPlyRules "" 2 2%nat
                         (treeRules_undo _) ltac:(lia) ltac:(lia)))).
Defined.

Lemma findBestMove_first_lowest_witness :
  exists m, @findBestMove _ twoPlyRules 2 "" 2 = Some (Some m).
Proof.
  destruct (@findBestMove_first_lowest _ twoPlyRules "" 2 2%nat
              (treeRules_undo _) ltac:(lia) ltac:(lia)
              ltac:(discriminate)
              (treeRules_no_moves (fun _ => twoPly) (mkGame twoPly []) twoPly_sound))
    as (i & m & s & Hbest & _).
  exists m. exact Hbest.
Defined.

(** C5, as stated, fails.  Black to move in 8/8/8/8/8/6pk/7N/6BK mates by
    1... g2, yet at depth 1 findBestMove returns 1... gxh2, which does not
    mate: the capture leaves 195 on the board, the mate 470 (both kings
    count on either side), and the lower score wins. *)
Lemma mate_in_one_counterexample :
  @mate_in_one _ mateRules (@newChess _ mateRules mateFen) /\
  @findBestMove _ mateRules 1 mateFen 1 = Some (Some pawnTakes) /\
  @isCheckmate _ mateRules
     (@move _ mateRules (@newChess _ mateRules mateFen) pawnTakes) = false /\
  @rootScore _ mateRules 1 1 (@newChess _ mateRules mateFen) pawnPush
  = Some (Fin 470) /\
  @rootScore _ mateRules 1 1 (@newChess _ mateRules mateFen) pawnTakes
  = Some (Fin 195).
Proof.
  split; [|vm_compute; repeat split].
  exists pawnPush. split; [left; reflexivity | reflexivity].
Qed.

Lemma mate_scored_statically_witness :
  @rootScore _ mateRules 1 1 (@newChess _ mateRules mateFen) pawnPush
  = Some (Fin 470).
Proof.
  exact (proj1 (@mate_scored_statically _ mateRules mateFen 1 1%nat pawnPush
                  (treeRules_undo _) ltac:(lia) ltac:(lia)
                  (treeRules_checkmate (fun _ => mateTree) (mkGame mateTree [])
                     mateTree_mates_over)
                  ltac:(left; reflexivity) eq_refl)).
Defined.

Lemma no_legal_move_no_evaluate_witness :
  @findBestMove _ matedRules 0 mateFen 3 = Some None.
Proof.
  exact (proj1 (@no_legal_move_no_evaluate _ matedRules mateFen 3 0%nat eq_refl)).
Defined.

(** Depth 3 on the tree with a cutoff: two of the three leaves are
    evaluated, the five moves played are all taken back, and the score is
    the unpruned one, 105 = max 105 (min 0 150). *)
Example cutoff_skips_a_leaf :
  exists tr,
    @search _ threePlyRules 3 3 (@newChess _ threePlyRules "")
    = Some ((Some (quiet "a7" "a6"), Fin 105), @newChess _ threePlyRules "", tr)
    /\ count isEvaluate tr = 2%nat
    /\ count isMoveEv tr = 5%nat /\ count isUndoEv tr = 5%nat
    /\ @fullMinimax _ threePlyRules 3 (@newChess _ threePlyRules "") false
       = Fin 105.
Proof. eexists. repeat split; vm_compute; reflexivity. Qed.

Lemma search_restores_position_witness :
  exists r tr,
    @search _ threePlyRules 3 3 (@newChess _ threePlyRules "")
    = Some (r, @newChess _ threePlyRules "", tr)
    /\ balanced tr.
Proof.
  destruct (@search_restores_position _ threePlyRules
              (@newChess _ threePlyRules "") 3 3%nat (treeRules_undo _))
    as (_ & Hkeep & _ & Hret).
  destruct (Hret ltac:(lia) ltac:(lia)) as (r & tr & Hs).
  exists r, tr. split; [exact Hs | apply (Hkeep _ _ _ Hs)].
Defined.

Lemma findBestMove_terminates_witness :
  exists r, @findBestMove _ endlessRules 3 mateFen 3 = Some r.
Proof.
  exact (proj1 (@findBestMove_terminates _ endlessRules mateFen 3 3%nat
                  ltac:(lia) ltac:(lia))).
Defined.

Lemma findBestMove_legal_witness :
  exists m,
    @findBestMove _ twoPlyRules 2 "" 2 = Some (Some m) /\
    In m (@moves _ twoPlyRules (@newChess _ twoPlyRules "")).
Proof.
  exact (@findBestMove_legal _ twoPlyRules "" 2 2%nat
           (treeRules_undo _) ltac:(lia) ltac:(lia)
           ltac:(discriminate)
           (treeRules_no_moves (fun _ => twoPly) (mkGame twoPly []) twoPly_sound)).
Defined.

(** Why the depth must be at least 1: with depth 0 the nested call has
    depth -1, the test [depth === 0] never succeeds, and on an engine whose
    game never ends no amount of fuel lets findBestMove return. *)
Lemma endless_below_zero (fuel : nat) :
  forall depth alpha beta mx g,
    depth < 0 -> @minimax _ endlessRules fuel depth alpha beta mx g = None.
Proof.
  induction fuel as [|fuel IH]; intros depth alpha beta mx g Hd; [reflexivity|].
  rewrite minimax_S.
  replace (depth =? 0) with false by (symmetry; apply Z.eqb_neq; lia).
  unfold bind, orderedMoves, gameMoves, ret. simpl.
  destruct mx; simpl; unfold bind, gameMove; rewrite IH by lia; reflexivity.
Qed.

Remark depth_zero_never_returns (fuel : nat) (fen : string) :
  @findBestMove _ endlessRules fuel fen 0 = None.
Proof.
  unfold findBestMove, search, orderedMoves, bind, gameMoves, ret. simpl.
  unfold bind, gameMove. rewrite endless_below_zero by lia. reflexivity.
Qed.

(* ===================================================================== *)
(** ** More on minimax: windows, visited leaves, move order *)
(* ===================================================================== *)

Lemma sound_exact (alpha beta t : Num) : sound alpha beta t t.
Proof. unfold sound. num. Qed.

Lemma sound_max_nil (maxEval alpha beta : Num) :
  Nle maxEval alpha -> Nlt alpha beta ->
  Nle maxEval maxEval /\ sound alpha beta NegInf maxEval.
Proof. unfold sound. num. Qed.

Lemma sound_min_nil (minEval alpha beta : Num) :
  Nle beta minEval -> Nlt alpha beta ->
  Nle minEval minEval /\ sound alpha beta PosInf minEval.
Proof. unfold sound. num. Qed.

Lemma sound_max_cut (maxEval alpha beta e t T : Num) :
  Nle maxEval alpha -> Nlt alpha beta -> sound alpha beta t e ->
  Nle beta (Nmax alpha e) ->
  Nle maxEval (Nmax maxEval e) /\ sound alpha beta (Nmax t T) (Nmax maxEval e).
Proof. unfold sound. num. Qed.

Lemma sound_max_go (maxEval alpha beta e t T v : Num) :
  Nle maxEval alpha -> Nlt alpha beta -> sound alpha beta t e ->
  Nlt (Nmax alpha e) beta ->
  (Nle (Nmax maxEval e) (Nmax alpha e) -> Nlt (Nmax alpha e) beta ->
   Nle (Nmax maxEval e) v /\ sound (Nmax alpha e) beta T v) ->
  Nle maxEval v /\ sound alpha beta (Nmax t T) v.
Proof. unfold sound. num. Qed.

Lemma sound_min_cut (minEval alpha beta e t T : Num) :
  Nle beta minEval -> Nlt alpha beta -> sound alpha beta t e ->
  Nle (Nmin beta e) alpha ->
  Nle (Nmin minEval e) minEval /\ sound alpha beta (Nmin t T) (Nmin minEval e).
Proof. unfold sound. num. Qed.

Lemma sound_min_go (minEval alpha beta e t T v : Num) :
  Nle beta minEval -> Nlt alpha beta -> sound alpha beta t e ->
  Nlt alpha (Nmin beta e) ->
  (Nle (Nmin beta e) (Nmin minEval e) -> Nlt alpha (Nmin beta e) ->
   Nle v (Nmin minEval e) /\ sound alpha (Nmin beta e) T v) ->
  Nle v minEval /\ sound alpha beta (Nmin t T) v.
Proof. unfold sound. num. Qed.

(** Both halves together, in the form the caller of minimax reads. *)
Lemma window_cases (alpha beta t v : Num) :
  within alpha beta t v -> sound alpha beta t v ->
  (Nle t alpha -> Nle t v /\ Nle v alpha) /\
  (Nlt alpha t -> Nlt t beta -> v = t) /\
  (Nle beta t -> Nle beta v /\ Nle v t).
Proof.
  intros (W1 & W2 & W3) (S1 & S2 & S3). split; [|split].
  - intros Ht. split; [apply S1, W1, Ht | apply W1, Ht].
  - intros H1 H2. destruct (W2 H1 H2). apply Nle_antisym; assumption.
  - intros Ht. split; [apply W3, Ht | apply S3, W3, Ht].
Qed.

Lemma inRange_max (a b : Num) : inRange a -> inRange b -> inRange (Nmax a b).
Proof. destruct a, b; simpl; lia. Qed.

Lemma inRange_min (a b : Num) : inRange a -> inRange b -> inRange (Nmin a b).
Proof. destruct a, b; simpl; lia. Qed.

Lemma listMax_inRange (l : list Num) : Forall inRange l -> inRange (listMax l).
Proof.
  induction 1 as [|a l Ha _ IH]; simpl; [exact I | apply inRange_max; assumption].
Qed.

Lemma listMin_inRange (l : list Num) : Forall inRange l -> inRange (listMin l).
Proof.
  induction 1 as [|a l Ha _ IH]; simpl; [exact I | apply inRange_min; assumption].
Qed.

Lemma count_app (p : Event -> bool) (t1 t2 : list Event) :
  count p (t1 ++ t2) = (count p t1 + count p t2)%nat.
Proof. unfold count. rewrite List.filter_app, List.length_app. reflexivity. Qed.

Lemma list_sum_perm (l l' : list nat) :
  Permutation l l' -> list_sum l = list_sum l'.
Proof.
  induction 1 as [|x l l' _ IH|x y l|l l' l'' _ IH1 _ IH2]; simpl; lia.
Qed.

Section MoreSearchFacts.

Context {Chess : Type} `{Rules Chess}.

Lemma restores_and {A} (c : M Chess A) (g : Chess) (P Q : A -> Prop) :
  restores c g P -> restores c g Q -> restores c g (fun a => P a /\ Q a).
Proof.
  intros (a & tr & Hc & Hn & HP) (a' & tr' & Hc' & _ & HQ).
  rewrite Hc in Hc'. injection Hc' as <- <-.
  exists a, tr. auto.
Qed.

Lemma maxLoop_sound (rec : Num -> Num -> M Chess Num) (t : Move -> Num)
      (beta : Num) (g : Chess) (ms : list Move) :
  (forall m, In m ms -> undo (move g m) = g) ->
  (forall m a, In m ms ->
     restores (rec a beta) (move g m) (fun e => Nlt a beta -> sound a beta (t m) e)) ->
  forall maxEval alpha,
    restores (maxLoop rec ms maxEval alpha beta) g
      (fun v => Nle maxEval alpha -> Nlt alpha beta ->
                Nle maxEval v /\ sound alpha beta (listMax (map t ms)) v).
Proof.
  induction ms as [|m ms IH]; intros Hu Hrec maxEval alpha.
  - apply restores_ret. apply sound_max_nil.
  - simpl.
    eapply restores_bracket;
      [apply Hu; left; reflexivity | apply Hrec; left; reflexivity |].
    intros e He. cbv zeta.
    destruct (Nleb beta (Nmax alpha e)) eqn:Hcut.
    + apply restores_ret. intros Hma Hab.
      apply Nleb_le in Hcut. apply sound_max_cut; auto.
    + apply Nleb_gt in Hcut.
      eapply restores_weaken.
      * apply IH; intros; [apply Hu | apply Hrec]; right; assumption.
      * intros v Hv Hma Hab. simpl in Hv.
        apply (sound_max_go maxEval alpha beta e (t m)); auto.
Qed.

Lemma minLoop_sound (rec : Num -> Num -> M Chess Num) (t : Move -> Num)
      (alpha : Num) (g : Chess) (ms : list Move) :
  (forall m, In m ms -> undo (move g m) = g) ->
  (forall m b, In m ms ->
     restores (rec alpha b) (move g m) (fun e => Nlt alpha b -> sound alpha b (t m) e)) ->
  forall minEval beta,
    restores (minLoop rec ms minEval alpha beta) g
      (fun v => Nle beta minEval -> Nlt alpha beta ->
                Nle v minEval /\ sound alpha beta (listMin (map t ms)) v).
Proof.
  induction ms as [|m ms IH]; intros Hu Hrec minEval beta.
  - apply restores_ret. apply sound_min_nil.
  - simpl.
    eapply restores_bracket;
      [apply Hu; left; reflexivity | apply Hrec; left; reflexivity |].
    intros e He. cbv zeta.
    destruct (Nleb (Nmin beta e) alpha) eqn:Hcut.
    + apply restores_ret. intros Hma Hab.
      apply Nleb_le in Hcut. apply sound_min_cut; auto.
    + apply Nleb_gt in Hcut.
      eapply restores_weaken.
      * apply IH; intros; [apply Hu | apply Hrec]; right; assumption.
      * intros v Hv Hma Hab. simpl in Hv.
        apply (sound_min_go minEval alpha beta e (t m)); auto.
Qed.

Lemma minimax_sound (fuel : nat) :
  undo_restores ->
  forall depth alpha beta mx g,
    0 <= depth -> (Z.to_nat depth < fuel)%nat ->
    restores (minimax fuel depth alpha beta mx) g
      (fun v => Nlt alpha beta ->
                sound alpha beta (fullMinimax (Z.to_nat depth) g mx) v).
Proof.
  intros Hundo.
  induction fuel as [|fuel IH]; intros depth alpha beta mx g H0 Hf; [lia|].
  unfold restores. rewrite minimax_S.
  destruct (depth =? 0) eqn:Hd; simpl.
  - apply Z.eqb_eq in Hd. subst depth. simpl.
    eexists _, _. split; [reflexivity|].
    split; [apply neutral_evaluate | intros _; apply sound_exact].
  - destruct (to_nat_pred depth H0 Hd) as [Hn H1]. rewrite Hn. simpl.
    destruct (isGameOver g).
    + eexists _, _. split; [reflexivity|].
      split; [apply neutral_evaluate | intros _; apply sound_exact].
    + apply restores_ordered. destruct mx.
      * eapply restores_weaken.
        -- apply (maxLoop_sound _
                    (fun m => fullMinimax (Z.to_nat (depth - 1)) (move g m) false)).
           ++ apply undo_sorted, Hundo.
           ++ intros m a _. apply IH; lia.
        -- intros v Hv Hab. simpl in Hv.
           rewrite (listMax_perm _ _
                      (Permutation_map _ (sortMoves_perm (moves g)))).
           apply Hv; [exact I | exact Hab].
      * eapply restores_weaken.
        -- apply (minLoop_sound _
                    (fun m => fullMinimax (Z.to_nat (depth - 1)) (move g m) true)).
           ++ apply undo_sorted, Hundo.
           ++ intros m b _. apply IH; lia.
        -- intros v Hv Hab. simpl in Hv.
           rewrite (listMin_perm _ _
                      (Permutation_map _ (sortMoves_perm (moves g)))).
           apply Hv; [destruct beta; exact I | exact Hab].
Qed.

(** X1: a call of minimax with a window alpha < beta, at a depth its fuel
    covers, returns with the game object as it was; its value is the
    unpruned one when that lies strictly inside the window, and otherwise a
    bound on the same side: between the unpruned value and alpha when the
    unpruned value is at most alpha, between beta and the unpruned value
    when it is at least beta. *)
Theorem minimax_window (fuel : nat) (depth : Z) (alpha beta : Num)
        (mx : bool) (g : Chess) :
  undo_restores ->
  0 <= depth -> (Z.to_nat depth < fuel)%nat -> Nlt alpha beta ->
  exists v tr,
    minimax fuel depth alpha beta mx g = Some (v, g, tr) /\
    let t := fullMinimax (Z.to_nat depth) g mx in
    (Nle t alpha -> Nle t v /\ Nle v alpha) /\
    (Nlt alpha t -> Nlt t beta -> v = t) /\
    (Nle beta t -> Nle beta v /\ Nle v t).
Proof.
  intros Hundo H0 Hf Hab.
  destruct (restores_and _ _ _ _
              (minimax_restores Hundo fuel depth alpha beta mx g H0 Hf)
              (minimax_sound fuel Hundo depth alpha beta mx g H0 Hf))
    as (v & tr & Hm & _ & Hw & Hs).
  exists v, tr. split; [exact Hm|].
  apply window_cases; auto.
Qed.

(** *** Leaves visited *)

Lemma evaluatesAtMost_ret {A} (a : A) (g : Chess) (N : nat) :
  evaluatesAtMost (ret a) g N.
Proof.
  intros a' g' tr Hr. injection Hr as <- <- <-.
  split; [reflexivity | unfold count; simpl; lia].
Qed.

Lemma evaluatesAtMost_more {A} (c : M Chess A) (g : Chess) (N N' : nat) :
  (N <= N')%nat -> evaluatesAtMost c g N -> evaluatesAtMost c g N'.
Proof.
  intros Hle Hc a g' tr Hr. destruct (Hc a g' tr Hr). split; [assumption | lia].
Qed.

Lemma evaluatesAtMost_bracket {A B} (m : Move) (rec : M Chess A)
      (k : A -> M Chess B) (g : Chess) (N1 N2 : nat) :
  undo (move g m) = g ->
  evaluatesAtMost rec (move g m) N1 ->
  (forall e, evaluatesAtMost (k e) g N2) ->
  evaluatesAtMost (bind (gameMove m)
                        (fun _ => bind rec (fun e => bind gameUndo (fun _ => k e))))
                  g (N1 + N2).
Proof.
  intros Hu Hrec Hk b g' tr. unfold bind, gameMove, gameUndo.
  destruct (rec (move g m)) as [[[e g1] t1]|] eqn:He; [|discriminate].
  destruct (Hrec e g1 t1 He) as [-> Hn1]. rewrite Hu.
  destruct (k e g) as [[[b' g2] t2]|] eqn:Hb; [|discriminate].
  destruct (Hk e b' g2 t2 Hb) as [-> Hn2].
  intros Hr. injection Hr as <- <- <-.
  split; [reflexivity|].
  unfold count in *. simpl.
  rewrite List.filter_app, List.length_app. simpl. lia.
Qed.

Lemma evaluatesAtMost_ordered {A} (k : list Move -> M Chess A) (g : Chess) (N : nat) :
  evaluatesAtMost (k (sortMoves (moves g))) g N ->
  evaluatesAtMost (bind orderedMoves k) g N.
Proof.
  intros Hk a g' tr. unfold bind, orderedMoves, gameMoves, ret. simpl.
  destruct (k (sortMoves (moves g)) g) as [[[a' g1] t1]|] eqn:Hr; [|discriminate].
  destruct (Hk a' g1 t1 Hr) as [-> Hn].
  intros Heq. injection Heq as <- <- <-.
  split; [reflexivity | exact Hn].
Qed.

Lemma maxLoop_evaluates (rec : Num -> Num -> M Chess Num) (L : Move -> nat)
      (g : Chess) (ms : list Move) :
  (forall m, In m ms -> undo (move g m) = g) ->
  (forall m a b, In m ms -> evaluatesAtMost (rec a b) (move g m) (L m)) ->
  forall maxEval alpha beta,
    evaluatesAtMost (maxLoop rec ms maxEval alpha beta) g (list_sum (map L ms)).
Proof.
  induction ms as [|m ms IH]; intros Hu Hrec maxEval alpha beta; simpl.
  - apply evaluatesAtMost_ret.
  - apply evaluatesAtMost_bracket;
      [apply Hu; left; reflexivity | apply Hrec; left; reflexivity |].
    intros e. cbv zeta. destruct (Nleb beta (Nmax alpha e)).
    + apply evaluatesAtMost_ret.
    + apply IH; intros; [apply Hu | apply Hrec]; right; assumption.
Qed.

Lemma minLoop_evaluates (rec : Num -> Num -> M Chess Num) (L : Move -> nat)
      (g : Chess) (ms : list Move) :
  (forall m, In m ms -> undo (move g m) = g) ->
  (forall m a b, In m ms -> evaluatesAtMost (rec a b) (move g m) (L m)) ->
  forall minEval alpha beta,
    evaluatesAtMost (minLoop rec ms minEval alpha beta) g (list_sum (map L ms)).
Proof.
  induction ms as [|m ms IH]; intros Hu Hrec minEval alpha beta; simpl.
  - apply evaluatesAtMost_ret.
  - apply evaluatesAtMost_bracket;
      [apply Hu; left; reflexivity | apply Hrec; left; reflexivity |].
    intros e. cbv zeta. destruct (Nleb (Nmin beta e) alpha).
    + apply evaluatesAtMost_ret.
    + apply IH; intros; [apply Hu | apply Hrec]; right; assumption.
Qed.

Lemma rootLoop_evaluates (rec : M Chess Num) (L : Move -> nat)
      (g : Chess) (ms : list Move) :
  (forall m, In m ms -> undo (move g m) = g) ->
  (forall m, In m ms -> evaluatesAtMost rec (move g m) (L m)) ->
  forall bm be,
    evaluatesAtMost (rootLoop rec ms bm be) g (list_sum (map L ms)).
Proof.
  induction ms as [|m ms IH]; intros Hu Hrec bm be; simpl.
  - apply evaluatesAtMost_ret.
  - apply evaluatesAtMost_bracket;
      [apply Hu; left; reflexivity | apply Hrec; left; reflexivity |].
    intros e. destruct (Nltb e be);
      apply IH; intros; first [apply Hu | apply Hrec]; right; assumption.
Qed.

Lemma leaves_sorted (n : nat) (g : Chess) :
  list_sum (map (fun m => leaves n (move g m)) (sortMoves (moves g)))
  = list_sum (map (fun m => leaves n (move g m)) (moves g)).
Proof.
  symmetry. apply list_sum_perm, Permutation_map, sortMoves_perm.
Qed.

Lemma minimax_evaluates (fuel : nat) :
  undo_restores ->
  forall depth alpha beta mx g,
    0 <= depth ->
    evaluatesAtMost (minimax fuel depth alpha beta mx) g (leaves (Z.to_nat depth) g).
Proof.
  intros Hundo.
  induction fuel as [|fuel IH]; intros depth alpha beta mx g H0.
  - intros a g' tr Hr. discriminate.
  - intros a g' tr. rewrite minimax_S.
    destruct (depth =? 0) eqn:Hd; simpl orb.
    + apply Z.eqb_eq in Hd. subst depth. simpl.
      unfold gameEvaluate. intros Hr. injection Hr as <- <- <-.
      split; [reflexivity | unfold count; simpl; lia].
    + destruct (to_nat_pred depth H0 Hd) as [Hn H1]. rewrite Hn. simpl.
      destruct (isGameOver g).
      * unfold gameEvaluate. intros Hr. injection Hr as <- <- <-.
        split; [reflexivity | unfold count; simpl; lia].
      * apply evaluatesAtMost_ordered. rewrite <- leaves_sorted.
        destruct mx; [apply maxLoop_evaluates | apply minLoop_evaluates];
          intros; first [apply undo_sorted; assumption | apply IH; lia].
Qed.

(** X2: pruning never costs evaluations.  Whenever minimax returns, it has
    called evaluate at most as often as the unpruned traversal to the same
    depth has leaves, and findBestMove at most as often as the unpruned
    traversals below the root moves have leaves together. *)
Theorem pruning_saves_evaluations (fuel : nat) (depth : Z) (g : Chess) :
  undo_restores ->
  (0 <= depth ->
   forall alpha beta mx v g' tr,
     minimax fuel depth alpha beta mx g = Some (v, g', tr) ->
     (count isEvaluate tr <= leaves (Z.to_nat depth) g)%nat) /\
  (1 <= depth ->
   forall r g' tr,
     search fuel depth g = Some (r, g', tr) ->
     (count isEvaluate tr
      <= list_sum (map (fun m => leaves (Z.to_nat (depth - 1)) (move g m))
                       (moves g)))%nat).
Proof.
  intros Hundo. split.
  - intros H0 alpha beta mx v g' tr Hm.
    apply (minimax_evaluates fuel Hundo depth alpha beta mx g H0 v g' tr Hm).
  - intros H1 r g' tr. unfold search.
    intros Hs.
    eapply (evaluatesAtMost_ordered _ g); [|exact Hs].
    rewrite <- leaves_sorted.
    destruct (length (sortMoves (moves g)) =? 0)%nat.
    + apply evaluatesAtMost_ret.
    + apply rootLoop_evaluates; intros;
        [apply undo_sorted; assumption
        | apply minimax_evaluates; [assumption | lia]].
Qed.

(** *** Scores in range *)

Lemma fullMinimax_inRange (n : nat) :
  forall g mx, inRange (fullMinimax n g mx).
Proof.
  induction n as [|n IH]; intros g mx; simpl.
  - apply evaluate_bounded.
  - destruct (isGameOver g); [apply evaluate_bounded|].
    destruct mx; [apply listMax_inRange | apply listMin_inRange];
      apply List.Forall_forall; intros x Hx; apply in_map_iff in Hx;
      destruct Hx as (m & <- & _); apply IH.
Qed.

End MoreSearchFacts.

Section RootFacts.

Context {Chess : Type} `{Rules Chess}.

(** X3: with the full window, a root score is one of the infinities or an
    integer of at most 1283200 in absolute value; and when positions
    without a legal move count as finished it is such an integer. *)
Theorem rootScore_in_range (fuel : nat) (depth : Z) (g : Chess) (m : Move) :
  undo_restores ->
  1 <= depth -> (Z.to_nat depth <= fuel)%nat ->
  exists s,
    rootScore fuel depth g m = Some s /\ inRange s /\
    (In m (moves g) -> no_moves_is_over g ->
     exists z, s = Fin z /\ -1283200 <= z <= 1283200 /\ 1283200 < 2 ^ 53).
Proof.
  intros Hundo H1 Hf. eexists.
  split; [apply rootScore_full; assumption|].
  split; [apply fullMinimax_inRange|].
  intros Hin Hover.
  pose proof (fullMinimax_inRange (Z.to_nat (depth - 1)) (move g m) true) as Hr.
  pose proof (fullMinimax_finite (Z.to_nat (depth - 1)) (move g m) true
                (no_moves_is_over_step g m Hin Hover)) as Hfin.
  destruct (fullMinimax _ _ _) as [|z|]; simpl in *; try contradiction.
  exists z. repeat split; try lia.
Qed.

(** X4: findBestMove returns null exactly when no root move scores below
    Infinity; in particular when there is no root move. *)
Theorem findBestMove_null_iff (fen : string) (depth : Z) (fuel : nat) :
  undo_restores ->
  1 <= depth -> (Z.to_nat depth <= fuel)%nat ->
  let g := newChess fen in
  findBestMove fuel fen depth = Some None <->
  (forall m, In m (moves g) -> rootScore fuel depth g m = Some PosInf).
Proof.
  intros Hundo H1 Hf g.
  destruct (search_restores Hundo fuel depth g H1 Hf)
    as (r & tr & Hs & _ & Hr & _).
  rewrite (findBestMove_search _ _ _ _ _ _ Hs).
  destruct Hr as [[-> Hall] | (i & m & Hi & -> & Hlt & _ & _)]; simpl.
  - split; [|reflexivity]. intros _ m Hm.
    rewrite rootScore_full by assumption. f_equal.
    apply (proj2 (sortMoves_In _ _)) in Hm. specialize (Hall m Hm).
    destruct (fullMinimax _ _ _); simpl in *; tauto.
  - split; [discriminate|]. intros Hall. exfalso.
    apply nth_error_In in Hi. apply (proj1 (sortMoves_In _ _)) in Hi.
    specialize (Hall m Hi). rewrite rootScore_full in Hall by assumption.
    injection Hall as Hall. fold g in Hlt. rewrite Hall in Hlt. exact Hlt.
Qed.

(** X5: at depth 1 the search is greedy on the static evaluation: with a
    legal move at the root it always returns a move, the first of the
    ordered moves after which evaluate is lowest, whatever the engine says
    about finished games. *)
Theorem depth_one_greedy (fen : string) (fuel : nat) :
  undo_restores ->
  (1 <= fuel)%nat ->
  let g := newChess fen in
  moves g <> [] ->
  exists i m,
    findBestMove fuel fen 1 = Some (Some m) /\
    nth_error (sortMoves (moves g)) i = Some m /\
    (forall m', In m' (moves g) ->
                evaluate (board (move g m)) <= evaluate (board (move g m'))) /\
    (forall j m', (j < i)%nat -> nth_error (sortMoves (moves g)) j = Some m' ->
                  evaluate (board (move g m)) < evaluate (board (move g m'))).
Proof.
  intros Hundo Hf g Hne.
  destruct (moves g) as [|m0 rest] eqn:Hms; [congruence|].
  assert (Hin : In m0 (moves g)) by (rewrite Hms; left; reflexivity).
  destruct (search_first_lowest fuel 1 g m0 Hundo ltac:(lia) ltac:(lia) Hin I)
    as (i & m & tr & Hs & Hi & Hbefore & Hall).
  rewrite <- Hms. exists i, m.
  split; [apply (findBestMove_search _ _ _ _ _ _ Hs)|].
  split; [exact Hi|]. split.
  - intros m' Hm'. apply (Hall m' Hm').
  - intros j m' Hj Hnth. apply (Hbefore j m' Hj Hnth).
Qed.

(** X6: at a root the engine does not report finished, the score
    findBestMove ends with is the value of a minimizing call of minimax at
    the root with the full window: the root loop is that call's loop, run
    without its cutoff. *)
Theorem root_is_minimizing_call (fen : string) (depth : Z) (fuel : nat) :
  undo_restores ->
  1 <= depth -> (Z.to_nat depth < fuel)%nat ->
  let g := newChess fen in
  isGameOver g = false ->
  exists bm v tr tr',
    search fuel depth g = Some ((bm, v), g, tr) /\
    minimax fuel depth NegInf PosInf false g = Some (v, g, tr').
Proof.
  intros Hundo H1 Hf g Hover.
  destruct (search_restores Hundo fuel depth g H1 ltac:(lia))
    as ([bm be] & tr & Hs & _ & _ & Hsnd).
  destruct (minimax_full Hundo fuel depth false g ltac:(lia) Hf)
    as (v & tr' & Hm & _ & Hv).
  simpl in Hsnd. exists bm, v, tr, tr'. split; [|exact Hm].
  rewrite Hs. repeat f_equal. rewrite Hsnd, Hv.
  replace (Z.to_nat depth) with (S (Z.to_nat (depth - 1))) by lia.
  simpl. rewrite Hover. reflexivity.
Qed.

End RootFacts.

(** *** The order of the engine's move list *)

Lemma withMoves_undo {Chess : Type} (R : Rules Chess) (mv : Chess -> list Move) :
  (forall g, Permutation (@moves _ R g) (mv g)) ->
  @undo_restores _ R -> @undo_restores _ (withMoves R mv).
Proof.
  intros Hperm Hundo g m Hin. simpl in *. apply Hundo.
  eapply Permutation_in; [apply Permutation_sym, Hperm | exact Hin].
Qed.

Lemma fullMinimax_withMoves {Chess : Type} (R : Rules Chess)
      (mv : Chess -> list Move) :
  (forall g, Permutation (@moves _ R g) (mv g)) ->
  forall n g mx,
    @fullMinimax _ (withMoves R mv) n g mx = @fullMinimax _ R n g mx.
Proof.
  intros Hperm. induction n as [|n IH]; intros g mx; simpl; [reflexivity|].
  destruct (@isGameOver _ R g); [reflexivity|].
  destruct mx.
  - rewrite (listMax_perm _ _ (Permutation_map _ (Permutation_sym (Hperm g)))).
    f_equal. apply map_ext. intros m. apply IH.
  - rewrite (listMin_perm _ _ (Permutation_map _ (Permutation_sym (Hperm g)))).
    f_equal. apply map_ext. intros m. apply IH.
Qed.

(** X7: the score of the search does not depend on the order in which the
    engine lists the legal moves: listing them in another order, at any
    position, leaves the score findBestMove ends with as it is (the move it
    keeps among equal scores may change). *)
Theorem score_independent_of_move_order {Chess : Type} (R : Rules Chess)
        (mv : Chess -> list Move) (fen : string) (depth : Z) (fuel : nat) :
  @undo_restores _ R ->
  (forall g, Permutation (@moves _ R g) (mv g)) ->
  1 <= depth -> (Z.to_nat depth <= fuel)%nat ->
  let g := @newChess _ R fen in
  exists bm bm' v tr tr',
    @search _ R fuel depth g = Some ((bm, v), g, tr) /\
    @search _ (withMoves R mv) fuel depth g = Some ((bm', v), g, tr').
Proof.
  intros Hundo Hperm H1 Hf g.
  destruct (@search_restores _ R Hundo fuel depth g H1 Hf)
    as ([bm be] & tr & Hs & _ & _ & Hsnd).
  destruct (@search_restores _ (withMoves R mv)
              (withMoves_undo R mv Hperm Hundo) fuel depth g H1 Hf)
    as ([bm' be'] & tr' & Hs' & _ & _ & Hsnd').
  simpl in Hsnd, Hsnd'.
  exists bm, bm', be, tr, tr'. split; [exact Hs|].
  rewrite Hs'. repeat f_equal. rewrite Hsnd, Hsnd'.
  rewrite <- (listMin_perm _ _ (Permutation_map _ (Hperm g))).
  f_equal. apply map_ext. intros m. apply fullMinimax_withMoves, Hperm.
Qed.

(** *** The further properties of the search at concrete positions *)

Lemma minimax_window_witness :
  exists v tr,
    @minimax _ threePlyRules 3 2 (Fin 0) (Fin 100) true
       (@move _ threePlyRules (@newChess _ threePlyRules "") (quiet "a7" "a6"))
    = Some (v, @move _ threePlyRules (@newChess _ threePlyRules "")
                 (quiet "a7" "a6"), tr)
    /\ Nle (Fin 100) v.
Proof.
  destruct (@minimax_window _ threePlyRules 3%nat 2 (Fin 0) (Fin 100) true
              (@move _ threePlyRules (@newChess _ threePlyRules "")
                     (quiet "a7" "a6"))
              (treeRules_undo _) ltac:(lia) ltac:(simpl; lia) ltac:(simpl; lia))
    as (v & tr & Hm & _ & _ & Hhigh).
  exists v, tr. split; [exact Hm|]. apply Hhigh. vm_compute. discriminate.
Defined.

Lemma pruning_saves_evaluations_witness :
  exists r tr,
    @search _ threePlyRules 3 3 (@newChess _ threePlyRules "")
    = Some (r, @newChess _ threePlyRules "", tr)
    /\ (count isEvaluate tr <= 3)%nat.
Proof.
  eexists _, _. split; [vm_compute; reflexivity|].
  refine (proj2 (@pruning_saves_evaluations _ threePlyRules 3%nat 3
                   (@newChess _ threePlyRules "") (treeRules_undo _))
                ltac:(lia) _ _ _ _).
  vm_compute. reflexivity.
Defined.

Lemma rootScore_in_range_witness :
  exists s,
    @rootScore _ twoPlyRules 2 2 (@newChess _ twoPlyRules "") (quiet "a7" "a6")
    = Some s /\ inRange s.
Proof.
  destruct (@rootScore_in_range _ twoPlyRules 2%nat 2
              (@newChess _ twoPlyRules "") (quiet "a7" "a6")
              (treeRules_undo _) ltac:(lia) ltac:(lia))
    as (s & Hs & Hr & _).
  exists s. split; assumption.
Defined.

Lemma findBestMove_null_iff_witness :
  @findBestMove _ matedRules 1 mateFen 1 = Some None.
Proof.
  apply (@findBestMove_null_iff _ matedRules mateFen 1 1%nat
           (treeRules_undo _) ltac:(lia) ltac:(lia)).
  intros m [].
Defined.

Lemma depth_one_greedy_witness :
  exists m, @findBestMove _ mateRules 1 mateFen 1 = Some (Some m).
Proof.
  destruct (@depth_one_greedy _ mateRules mateFen 1%nat
              (treeRules_undo _) ltac:(lia) ltac:(discriminate))
    as (i & m & Hbest & _).
  exists m. exact Hbest.
Defined.

Lemma root_is_minimizing_call_witness :
  exists v tr',
    @minimax _ twoPlyRules 3 2 NegInf PosInf false (@newChess _ twoPlyRules "")
    = Some (v, @newChess _ twoPlyRules "", tr').
Proof.
  destruct (@root_is_minimizing_call _ twoPlyRules "" 2 3%nat
              (treeRules_undo _) ltac:(lia) ltac:(simpl; lia) eq_refl)
    as (bm & v & tr & tr' & _ & Hm).
  exists v, tr'. exact Hm.
Defined.

Lemma score_independent_of_move_order_witness :
  exists bm bm' v tr tr',
    @search _ twoPlyRules 2 2 (@newChess _ twoPlyRules "")
    = Some ((bm, v), @newChess _ twoPlyRules "", tr) /\
    @search _ (withMoves twoPlyRules (fun g => rev (@moves _ twoPlyRules g)))
       2 2 (@newChess _ twoPlyRules "")
    = Some ((bm', v), @newChess _ twoPlyRules "", tr').
Proof.
  exact (@score_independent_of_move_order _ twoPlyRules
           (fun g => rev (@moves _ twoPlyRules g)) "" 2 2%nat
           (treeRules_undo _) (fun g => Permutation_rev _)
           ltac:(lia) ltac:(lia)).
Defined.

(* ===================================================================== *)
(** ** More on the evaluator *)
(* ===================================================================== *)

Lemma evaluate_split (b : Board) :
  evaluate b =
  sumZ (map mirroredTerm (piecesOf White b))
  - sumZ (map directTerm (piecesOf Black b)).
Proof.
  rewrite evaluate_sum. unfold piecesOf.
  rewrite !sumZ_flat_map, <- sumZ_sub.
  f_equal. apply map_ext. intros row.
  rewrite !sumZ_flat_map, <- sumZ_sub.
  f_equal. apply map_ext. intros col.
  apply contrib_pieceAt.
Qed.

Lemma sumZ_between {A} (f : A -> Z) (lo hi : Z) (l : list A) :
  (forall x, lo <= f x <= hi) ->
  Z.of_nat (length l) * lo <= sumZ (map f l) <= Z.of_nat (length l) * hi.
Proof.
  intros Hf. induction l as [|x l IH]; [simpl; lia|].
  specialize (Hf x). rewrite length_cons. simpl sumZ. simpl map. simpl sumZ. lia.
Qed.

Lemma value_range (t : PieceSymbol) : 100 <= PIECE_VALUES t <= 20000.
Proof. destruct t; simpl; lia. Qed.

Lemma mirroredTerm_range (x : nat * nat * PieceSymbol) :
  50 <= mirroredTerm x <= 20050.
Proof.
  destruct x as [[row col] t]. unfold mirroredTerm.
  pose proof (value_range t). pose proof (pstAt_bound t (mirrorIdx row col)). lia.
Qed.

Lemma directTerm_range (x : nat * nat * PieceSymbol) :
  50 <= directTerm x <= 20050.
Proof.
  destruct x as [[row col] t]. unfold directTerm.
  pose proof (value_range t). pose proof (pstAt_bound t (idx row col)). lia.
Qed.

(** X8: every piece counts for its own side, by at least 50 and at most
    20050: with [w] white and [k] black pieces on the board the score lies
    between 50 w - 20050 k and 20050 w - 50 k.  So a board with white pieces
    only scores above zero, one with black pieces only below. *)
Theorem evaluate_by_piece_count (b : Board) :
  let w := Z.of_nat (length (piecesOf White b)) in
  let k := Z.of_nat (length (piecesOf Black b)) in
  50 * w - 20050 * k <= evaluate b <= 20050 * w - 50 * k.
Proof.
  intros w k. rewrite evaluate_split.
  pose proof (sumZ_between mirroredTerm 50 20050 (piecesOf White b)
                           mirroredTerm_range) as Hw.
  pose proof (sumZ_between directTerm 50 20050 (piecesOf Black b)
                           directTerm_range) as Hk.
  fold w in Hw. fold k in Hk. lia.
Qed.

Lemma sumZ_seq_single (f f' : nat -> Z) (k n s : nat) :
  (s <= k < s + n)%nat ->
  (forall i, (s <= i < s + n)%nat -> i <> k -> f' i = f i) ->
  sumZ (map f' (seq s n)) = sumZ (map f (seq s n)) - f k + f' k.
Proof.
  revert s. induction n as [|n IH]; intros s Hk Hsame; [lia|].
  simpl. destruct (Nat.eq_dec s k) as [->|Hne].
  - assert (Hrest : map f' (seq (S k) n) = map f (seq (S k) n)).
    { apply map_ext_in. intros i Hi. apply in_seq in Hi.
      apply Hsame; lia. }
    rewrite Hrest. lia.
  - rewrite (IH (S s)); [|lia|intros; apply Hsame; lia].
    rewrite (Hsame s); [lia | lia | exact Hne].
Qed.

(** X9: the score is a sum of one term per square.  If two boards differ
    in one square only, their scores differ by that square's term: the
    piece's value plus its table entry, counted up for White and down for
    Black, and nothing for an empty square. *)
Theorem evaluate_one_square (b b' : Board) (row col : nat) :
  (row < 8)%nat -> (col < 8)%nat ->
  (forall r c, (r < 8)%nat -> (c < 8)%nat -> (r, c) <> (row, col) ->
               cell b' r c = cell b r c) ->
  evaluate b' =
  evaluate b - contrib row col (cell b row col)
  + contrib row col (cell b' row col).
Proof.
  intros Hrow Hcol Hsame. rewrite !evaluate_sum.
  rewrite (sumZ_seq_single
             (fun r => sumZ (map (fun c => contrib r c (cell b r c)) (seq 0 8)))
             (fun r => sumZ (map (fun c => contrib r c (cell b' r c)) (seq 0 8)))
             row 8 0); [|lia|].
  - rewrite (sumZ_seq_single
               (fun c => contrib row c (cell b row c))
               (fun c => contrib row c (cell b' row c))
               col 8 0); [lia | lia |].
    intros c Hc Hne. rewrite Hsame; [reflexivity | lia | lia | congruence].
  - intros r Hr Hne. f_equal. apply map_ext_in. intros c Hc.
    apply in_seq in Hc. rewrite Hsame; [reflexivity | lia | lia | congruence].
Qed.

(** The board of the mate position with the knight on h2 taken off. *)
Lemma evaluate_one_square_witness :
  evaluate afterPawnTakes =
  evaluate afterPawnPush - contrib 6 6 bP + contrib 6 6 None
  - contrib 6 7 wN + contrib 6 7 bP.
Proof.
  pose (mid := [ emptyRow; emptyRow; emptyRow; emptyRow; emptyRow;
                 row_ None bK; row_ None wN; row_ wB wK ]).
  rewrite (evaluate_one_square mid afterPawnTakes 6 7); [|lia|lia|].
  - rewrite (evaluate_one_square afterPawnPush mid 6 6); [reflexivity|lia|lia|].
    intros r c Hr Hc Hne.
    do 8 (destruct r as [|r]; [do 8 (destruct c as [|c]; [first [reflexivity | congruence]|]); lia|]); lia.
  - intros r c Hr Hc Hne.
    do 8 (destruct r as [|r]; [do 8 (destruct c as [|c]; [first [reflexivity | congruence]|]); lia|]); lia.
Defined.

(* ===================================================================== *)
(** ** More on the move ordering *)
(* ===================================================================== *)

Lemma descending_nth (l : list Move) :
  descending l ->
  forall i j a b,
    (i < j)%nat -> nth_error l i = Some a -> nth_error l j = Some b ->
    priority b <= priority a.
Proof.
  induction l as [|x l IH]; intros Hd i j a b Hij Hi Hj.
  - destruct i; discriminate.
  - destruct Hd as [Hx Hl]. destruct j as [|j]; [lia|]. simpl in Hj.
    destruct i as [|i]; simpl in Hi.
    + injection Hi as <-. rewrite List.Forall_forall in Hx.
      apply Hx. eapply nth_error_In, Hj.
    + apply (IH Hl i j); [lia | assumption | assumption].
Qed.

Lemma priority_quiet (m : Move) :
  captured m = None -> promotion m = None -> 0 <= priority m <= 50.
Proof.
  intros Hc Hp. unfold priority. rewrite Hc, Hp.
  destruct (includes "+" (san m)); lia.
Qed.

Lemma priority_capture (m : Move) (t : PieceSymbol) :
  captured m = Some t -> promotion m = None ->
  PIECE_VALUES t * 10 <= priority m <= PIECE_VALUES t * 10 + 50.
Proof.
  intros Hc Hp. unfold priority. rewrite Hc, Hp.
  destruct (includes "+" (san m)); lia.
Qed.

Lemma priority_capture_min (m : Move) (t : PieceSymbol) :
  captured m = Some t -> 1000 <= priority m.
Proof.
  intros Hc. unfold priority. rewrite Hc.
  pose proof (value_range t).
  destruct (promotion m) as [p|]; [pose proof (value_range p)|];
    destruct (includes "+" (san m)); lia.
Qed.

(** X10: in the order orderMoves leaves, every capture stands before every
    move that neither captures nor promotes, and of two captures without
    promotion the one of the more valuable piece stands first, whether or
    not either gives check. *)
Theorem captures_first (l : list Move) (i j : nat) (a b : Move) :
  nth_error (sortMoves l) i = Some a ->
  nth_error (sortMoves l) j = Some b ->
  (forall t, captured a = Some t ->
             captured b = None -> promotion b = None -> (i < j)%nat) /\
  (forall t u, captured a = Some t -> captured b = Some u ->
               promotion a = None -> promotion b = None ->
               PIECE_VALUES u < PIECE_VALUES t -> (i < j)%nat).
Proof.
  intros Hi Hj.
  pose proof (descending_nth _ (sortMoves_descending l)) as Hd.
  split.
  - intros t Ha Hb Hpb.
    pose proof (priority_capture_min a t Ha).
    pose proof (priority_quiet b Hb Hpb).
    destruct (Nat.lt_trichotomy i j) as [Hlt | [-> | Hgt]]; [exact Hlt | |].
    + rewrite Hi in Hj. injection Hj as <-. lia.
    + pose proof (Hd j i b a Hgt Hj Hi). lia.
  - intros t u Ha Hb Hpa Hpb Hval.
    pose proof (priority_capture a t Ha Hpa).
    pose proof (priority_capture b u Hb Hpb).
    assert (Hgap : PIECE_VALUES u + 10 <= PIECE_VALUES t)
      by (destruct t, u; simpl in *; lia).
    destruct (Nat.lt_trichotomy i j) as [Hlt | [-> | Hgt]]; [exact Hlt | |].
    + rewrite Hi in Hj. injection Hj as <-. lia.
    + pose proof (Hd j i b a Hgt Hj Hi). lia.
Qed.

Lemma captures_first_witness :
  nth_error (sortMoves [kingStep; pawnPush; pawnTakes]) 0 = Some pawnTakes /\
  nth_error (sortMoves [kingStep; pawnPush; pawnTakes]) 1 = Some kingStep /\
  (0 < 1)%nat.
Proof.
  split; [reflexivity|]. split; [reflexivity|].
  refine (proj1 (captures_first [kingStep; pawnPush; pawnTakes] 0 1
                   pawnTakes kingStep eq_refl eq_refl)
                Knight eq_refl eq_refl eq_refl).
Defined.

(** X11: ordering an array that orderMoves has ordered changes nothing:
    a second call returns the same array with the same contents. *)
Theorem orderMoves_twice (moves : loc) (h h' : gmap loc (list Move)) (a : loc) :
  orderMoves moves h = Some (a, h') ->
  orderMoves a h' = Some (a, h').
Proof.
  unfold orderMoves. destruct (h !! moves) as [l|] eqn:Hl; [|discriminate].
  intros Heq. injection Heq as <- <-.
  rewrite lookup_insert_eq, insert_insert_eq.
  rewrite (sortMoves_fixed _ (sortMoves_descending l)). reflexivity.
Qed.

Lemma orderMoves_twice_witness :
  exists h', orderMoves 0%nat oneArray = Some (0%nat, h') /\
             orderMoves 0%nat h' = Some (0%nat, h').
Proof.
  eexists. split; [reflexivity|].
  apply (orderMoves_twice 0%nat oneArray). reflexivity.
Defined.

(* ===================================================================== *)
(** ** Square names and the king's square *)
(* ===================================================================== *)

Lemma squareOf_chars (row col : nat) :
  (row < 8)%nat ->
  squareOf row col =
  String (ascii_of_nat (97 + col))
         (String (nth row ["8"; "7"; "6"; "5"; "4"; "3"; "2"; "1"]%char "0"%char)
                 EmptyString).
Proof.
  intros Hrow.
  do 8 (destruct row as [|row]; [reflexivity|]). lia.
Qed.

Lemma file_letter_inj (col col' : nat) :
  (col < 8)%nat -> (col' < 8)%nat ->
  ascii_of_nat (97 + col) = ascii_of_nat (97 + col') -> col = col'.
Proof.
  intros Hc Hc' Heq. apply (f_equal nat_of_ascii) in Heq.
  rewrite !nat_ascii_embedding in Heq by lia. lia.
Qed.

(** X12: the names the store and the board give to the 64 squares are
    two characters long and pairwise distinct, and their second character
    is 8 exactly on the first row of the array and 1 exactly on the last:
    the rows the promotion tests look for. *)
Theorem squareOf_names (row col row' col' : nat) :
  (row < 8)%nat -> (col < 8)%nat -> (row' < 8)%nat -> (col' < 8)%nat ->
  (squareOf row col = squareOf row' col' <-> row = row' /\ col = col') /\
  (charAt (squareOf row col) 1 = Some "8"%char <-> row = 0%nat) /\
  (charAt (squareOf row col) 1 = Some "1"%char <-> row = 7%nat) /\
  String.length (squareOf row col) = 2%nat.
Proof.
  intros Hr Hc Hr' Hc'.
  rewrite (squareOf_chars row col Hr), (squareOf_chars row' col' Hr').
  unfold charAt. simpl String.get. simpl String.length.
  split; [|split; [|split; [|reflexivity]]].
  - split.
    + intros Heq. injection Heq as Hfile Hrank.
      split; [|apply file_letter_inj; assumption].
      do 8 (destruct row as [|row];
            [do 8 (destruct row' as [|row']; [first [reflexivity | discriminate]|]); lia|]).
      lia.
    + intros [-> ->]. reflexivity.
  - split.
    + intros Heq. injection Heq as Heq.
      do 8 (destruct row as [|row]; [first [reflexivity | discriminate]|]). lia.
    + intros ->. reflexivity.
  - split.
    + intros Heq. injection Heq as Heq.
      do 8 (destruct row as [|row]; [first [reflexivity | discriminate]|]). lia.
    + intros ->. reflexivity.
Qed.

Lemma squareOf_names_witness :
  squareOf 7 4 = "e1"%string /\
  (squareOf 7 4 = squareOf 0 4 <-> 7%nat = 0%nat /\ 4%nat = 4%nat).
Proof.
  split; [reflexivity|].
  exact (proj1 (squareOf_names 7 4 0 4 ltac:(lia) ltac:(lia) ltac:(lia) ltac:(lia))).
Defined.

Lemma firstReturn_none {A} (body : nat -> option A) (l : list nat) :
  firstReturn body l = None <-> forall i, In i l -> body i = None.
Proof.
  induction l as [|i l IH]; simpl.
  - split; [intros _ i [] | reflexivity].
  - destruct (body i) eqn:Hb.
    + split; [discriminate|]. intros Hall.
      rewrite <- Hb. apply Hall. left. reflexivity.
    + rewrite IH. split.
      * intros Hall j [<- | Hj]; [exact Hb | apply Hall, Hj].
      * intros Hall j Hj. apply Hall. right. exact Hj.
Qed.

Lemma firstReturn_some {A} (body : nat -> option A) (s n : nat) (a : A) :
  firstReturn body (seq s n) = Some a ->
  exists i, (s <= i < s + n)%nat /\ body i = Some a /\
            forall j, (s <= j < i)%nat -> body j = None.
Proof.
  revert s. induction n as [|n IH]; intros s; simpl; [discriminate|].
  destruct (body s) eqn:Hb.
  - intros Heq. injection Heq as <-. exists s.
    split; [lia|]. split; [exact Hb|]. intros j Hj. lia.
  - intros Hrest. destruct (IH (S s) Hrest) as (i & Hi & Hbi & Hbefore).
    exists i. split; [lia|]. split; [exact Hbi|].
    intros j Hj. destruct (Nat.eq_dec j s) as [->|Hne]; [exact Hb|].
    apply Hbefore. lia.
Qed.

Lemma king_test (p : Piece) (c : Color) :
  symbolEqb (ptype p) King && colorEqb (color p) c = true <-> p = mkPiece King c.
Proof.
  destruct p as [t c']. simpl. split.
  - intros Hb. apply andb_prop in Hb. destruct Hb as [Ht Hc].
    destruct t; try discriminate. destruct c', c; try discriminate; reflexivity.
  - intros Heq. injection Heq as -> ->. destruct c; reflexivity.
Qed.

(** X13: findKingSquare returns null exactly when no king of the colour
    stands on the board; otherwise it returns the name of a square that
    holds one, the first in the order of the rows and, within a row, of
    the columns. *)
Theorem findKingSquare_spec (b : Board) (c : Color) :
  (findKingSquare b c = None <->
   forall row col, (row < 8)%nat -> (col < 8)%nat ->
                   cell b row col <> Some (mkPiece King c)) /\
  (forall s, findKingSquare b c = Some s ->
   exists row col,
     (row < 8)%nat /\ (col < 8)%nat /\ s = squareOf row col /\
     cell b row col = Some (mkPiece King c) /\
     forall row' col',
       (row' < 8)%nat -> (col' < 8)%nat ->
       (row' < row \/ (row' = row /\ col' < col))%nat ->
       cell b row' col' <> Some (mkPiece King c)).
Proof.
  set (inner := fun row col =>
         match cell b row col with
         | Some piece =>
             if symbolEqb (ptype piece) King && colorEqb (color piece) c
             then Some (squareOf row col) else None
         | None => None
         end).
  assert (Hinner_none : forall row col,
             inner row col = None <-> cell b row col <> Some (mkPiece King c)).
  { intros row col. unfold inner.
    destruct (cell b row col) as [p|]; [|split; [discriminate | reflexivity]].
    destruct (symbolEqb (ptype p) King && colorEqb (color p) c) eqn:Hk.
    - apply king_test in Hk. subst p. split; [discriminate | congruence].
    - split; [|reflexivity]. intros _ Heq. injection Heq as ->.
      rewrite (proj2 (king_test (mkPiece King c) c) eq_refl) in Hk.
      discriminate. }
  assert (Hinner_some : forall row col s,
             inner row col = Some s ->
             s = squareOf row col /\ cell b row col = Some (mkPiece King c)).
  { intros row col s. unfold inner.
    destruct (cell b row col) as [p|]; [|discriminate].
    destruct (symbolEqb (ptype p) King && colorEqb (color p) c) eqn:Hk;
      [|discriminate].
    apply king_test in Hk. subst p. intros Heq. injection Heq as <-. auto. }
  change (findKingSquare b c)
    with (firstReturn (fun row => firstReturn (inner row) (seq 0 8)) (seq 0 8)).
  split.
  - rewrite firstReturn_none. split.
    + intros Hall row col Hrow Hcol. apply Hinner_none.
      specialize (Hall row ltac:(apply in_seq; lia)).
      rewrite firstReturn_none in Hall. apply Hall, in_seq. lia.
    + intros Hall row Hrow. apply in_seq in Hrow.
      apply firstReturn_none. intros col Hcol. apply in_seq in Hcol.
      apply Hinner_none, Hall; lia.
  - intros s Hs.
    apply firstReturn_some in Hs. destruct Hs as (row & Hrow & Hs & Hbefore).
    apply firstReturn_some in Hs. destruct Hs as (col & Hcol & Hs & Hleft).
    destruct (Hinner_some row col s Hs) as [-> Hking].
    exists row, col. repeat split; try lia; try assumption.
    intros row' col' Hr' Hc' [Hlt | [-> Hlt]].
    + apply Hinner_none.
      specialize (Hbefore row' ltac:(lia)).
      rewrite firstReturn_none in Hbefore. apply Hbefore, in_seq. lia.
    + apply Hinner_none, Hleft. lia.
Qed.

(* ===================================================================== *)
(** ** The store keeps its copies current *)
(* ===================================================================== *)

Section StoreFacts.

Context {G : Type} `{ChessJs G}.

Lemma set_aiThinking_keeps (v : bool) (s : State) :
  storeInvariant s -> storeInvariant (set_aiThinking v s).
Proof. intros Hs. exact Hs. Qed.

Lemma set_pendingPromotion_keeps (v : option (string * string)) (s : State) :
  storeInvariant s -> storeInvariant (set_pendingPromotion v s).
Proof. intros Hs. exact Hs. Qed.

Lemma set_settings_keeps (a b c : bool) (d : Z) (t : ThemeMode) (s : State) :
  storeInvariant s -> storeInvariant (set_settings a b c d t s).
Proof. intros Hs. exact Hs. Qed.

Lemma set_selection_keeps (square : string) (s : State) :
  storeInvariant s ->
  storeInvariant (set_selection (Some square) (getLegalMovesFrom s square) s).
Proof. intros [Hsync _]. split; [exact Hsync | reflexivity]. Qed.

Lemma clear_selection_keeps (s : State) :
  storeInvariant s -> storeInvariant (set_selection None [] s).
Proof. intros [Hsync _]. split; [exact Hsync | reflexivity]. Qed.

Lemma makeMove_keeps (s : State) (f t : string) (p : option PieceSymbol) :
  storeInvariant s -> storeInvariant (fst (makeMove s f t p)).
Proof.
  intros Hs. unfold makeMove.
  destruct (game_move (game s) f t p) as [[[mv flags] g]|]; [|exact Hs].
  cbv zeta.
  match goal with
  | |- context [if ?c then _ else _] => destruct c
  end; simpl; (split; [repeat split | reflexivity]).
Qed.

Lemma fresh_keeps (s : State) :
  freshGame ->
  inSync (resetGame s) /\ selectionCurrent (resetGame s).
Proof.
  intros (Hturn & Hhist & Hcheck & Hstatus).
  split; [|reflexivity].
  unfold inSync. simpl. rewrite Hcheck. auto.
Qed.

Lemma step_keeps (s : State) (a : Action) :
  freshGame -> storeInvariant s -> storeInvariant (fst (step s a)).
Proof.
  intros Hfresh Hs. destruct a; simpl.
  - (* selectSquare *)
    unfold selectSquare.
    destruct (negb (isPlaying (status s)) || aiThinking s); [exact Hs|].
    destruct (isAiMode (gameMode s) && colorEqb (game_turn (game s)) Black);
      [exact Hs|].
    assert (Hown : storeInvariant
              (fst (match game_get (game s) square with
                    | Some p =>
                        if colorEqb (color p) (game_turn (game s))
                        then (set_selection (Some square)
                                            (getLegalMovesFrom s square) s,
                              @nil Effect)
                        else (set_selection None [] s, [])
                    | None => (set_selection None [] s, [])
                    end))).
    { destruct (game_get (game s) square) as [p|];
        [destruct (colorEqb (color p) (game_turn (game s)))|]; simpl;
        first [apply set_selection_keeps | apply clear_selection_keeps]; exact Hs. }
    cbv zeta.
    destruct (selectedSquare s) as [selected|]; [|exact Hown].
    destruct (includesSquare (getLegalMovesFrom s selected) square); [|exact Hown].
    destruct (reachesLastRank (game_get (game s) selected) square).
    + apply set_pendingPromotion_keeps, Hs.
    + apply makeMove_keeps, Hs.
  - apply makeMove_keeps, Hs.
  - unfold handlePromotion. destruct (pendingPromotion s) as [[f t]|];
      [apply makeMove_keeps, Hs | exact Hs].
  - apply set_pendingPromotion_keeps, clear_selection_keeps, Hs.
  - apply set_pendingPromotion_keeps, clear_selection_keeps, Hs.
  - split; [repeat split | reflexivity].
  - apply fresh_keeps, Hfresh.
  - destruct Hfresh as (Hturn & Hhist & Hcheck & Hstatus).
    split; [|reflexivity]. unfold inSync. simpl. rewrite Hcheck. auto.
  - apply set_settings_keeps, Hs.
  - apply set_settings_keeps, Hs.
  - apply set_settings_keeps, Hs.
  - apply set_settings_keeps, Hs.
  - apply set_settings_keeps, Hs.
  - unfold aiAnswered.
    destruct aiMove as [mv|]; [|apply set_aiThinking_keeps, Hs].
    destruct (isPlaying (status s) && isAiMode (gameMode s));
      [|apply set_aiThinking_keeps, Hs].
    pose proof (makeMove_keeps s (from mv) (to mv) (promotion mv) Hs) as Hm.
    destruct (makeMove s (from mv) (to mv) (promotion mv)) as [s1 e1].
    apply set_aiThinking_keeps, Hm.
Qed.

Lemma run_keeps (acts : list Action) :
  freshGame ->
  forall s, storeInvariant s -> storeInvariant (fst (run s acts)).
Proof.
  intros Hfresh. induction acts as [|a acts IH]; intros s Hs; [exact Hs|].
  simpl. pose proof (step_keeps s a Hfresh Hs) as Hstep.
  destruct (step s a) as [s1 e1]. specialize (IH s1 Hstep).
  destruct (run s1 acts) as [s2 e2]. exact IH.
Qed.

(** X14: whatever is done to the store, in whatever order (its actions,
    the board's drop handler, answers of the AI), the fields copied from
    the game object (fen, history, status, turn, the checked king's square)
    agree with the object, and the highlighted squares are the destinations
    of the selected piece in the object's position, none without a
    selection.  This rests on what the store's literals say of a new game:
    White to move, no move made, no check, not over. *)
Theorem store_stays_current (acts : list Action) :
  freshGame ->
  let s := fst (run initialState acts) in
  inSync s /\ selectionCurrent s.
Proof.
  intros Hfresh. apply run_keeps; [exact Hfresh|].
  destruct Hfresh as (Hturn & Hhist & Hcheck & Hstatus).
  split; [|reflexivity]. unfold inSync. simpl. rewrite Hcheck. auto.
Qed.

Lemma step_muted (s : State) (a : Action) :
  soundEnabled s = false -> isToggleSound a = false ->
  soundEnabled (fst (step s a)) = false /\
  Forall (fun e => isSound e = false) (snd (step s a)).
Proof.
  intros Hoff Ha.
  assert (Hmake : forall f t p,
             soundEnabled (fst (makeMove s f t p)) = false /\
             Forall (fun e => isSound e = false) (snd (makeMove s f t p))).
  { intros f t p. unfold makeMove.
    destruct (game_move (game s) f t p) as [[[mv flags] g]|];
      [|split; [exact Hoff | constructor]].
    cbv zeta. rewrite Hoff. simpl.
    match goal with
    | |- context [if ?c then _ else _] => destruct c
    end; simpl; split; auto. }
  destruct a; simpl; try discriminate;
    try solve [split; [exact Hoff | constructor]];
    try apply Hmake.
  - unfold selectSquare.
    destruct (negb (isPlaying (status s)) || aiThinking s);
      [split; [exact Hoff | constructor]|].
    destruct (isAiMode (gameMode s) && colorEqb (game_turn (game s)) Black);
      [split; [exact Hoff | constructor]|].
    cbv zeta.
    assert (Hown : forall (x : State * list Effect),
               x = match game_get (game s) square with
                   | Some p =>
                       if colorEqb (color p) (game_turn (game s))
                       then (set_selection (Some square)
                                           (getLegalMovesFrom s square) s, [])
                       else (set_selection None [] s, [])
                   | None => (set_selection None [] s, [])
                   end ->
               soundEnabled (fst x) = false /\
               Forall (fun e => isSound e = false) (snd x)).
    { intros x ->. destruct (game_get (game s) square) as [p|];
        [destruct (colorEqb (color p) (game_turn (game s)))|];
        simpl; split; auto. }
    destruct (selectedSquare s) as [selected|]; [|apply Hown; reflexivity].
    destruct (includesSquare (getLegalMovesFrom s selected) square);
      [|apply Hown; reflexivity].
    destruct (reachesLastRank (game_get (game s) selected) square);
      [split; [exact Hoff | constructor] | apply Hmake].
  - unfold handlePromotion. destruct (pendingPromotion s) as [[f t]|];
      [apply Hmake | split; [exact Hoff | constructor]].
  - split; [exact Hoff | repeat constructor].
    destruct (theme s); reflexivity.
  - unfold aiAnswered.
    destruct aiMove as [mv|]; [|split; [exact Hoff | constructor]].
    destruct (isPlaying (status s) && isAiMode (gameMode s));
      [|split; [exact Hoff | constructor]].
    destruct (Hmake (from mv) (to mv) (promotion mv)) as [H1 H2].
    destruct (makeMove s (from mv) (to mv) (promotion mv)) as [s1 e1].
    split; assumption.
Qed.

(** X15: a muted store stays silent: from a state with the sound switched
    off, no sequence of happenings without toggleSound plays any sound. *)
Theorem muted_store_silent (s : State) (acts : list Action) :
  soundEnabled s = false ->
  forallb (fun a => negb (isToggleSound a)) acts = true ->
  forallb (fun e => negb (isSound e)) (snd (run s acts)) = true.
Proof.
  revert s. induction acts as [|a acts IH]; intros s Hoff Hacts; [reflexivity|].
  simpl in Hacts. apply andb_prop in Hacts. destruct Hacts as [Ha Hrest].
  apply negb_true_iff in Ha.
  destruct (step_muted s a Hoff Ha) as [Hoff1 Hsil].
  simpl. destruct (step s a) as [s1 e1]. simpl in Hoff1, Hsil.
  specialize (IH s1 Hoff1 Hrest).
  destruct (run s1 acts) as [s2 e2]. simpl in *.
  rewrite forallb_app, IH, andb_true_r.
  apply forallb_forall. intros e He.
  rewrite List.Forall_forall in Hsil. rewrite (Hsil e He). reflexivity.
Qed.

End StoreFacts.

Lemma recorder_fresh : @freshGame _ recorderChess.
Proof. repeat split. Qed.

Lemma store_stays_current_witness :
  let s := fst (@run _ recorderChess (@initialState _ recorderChess)
                     [StartGame PvpMode; MakeMove "e2" "e4" None; UndoMove]) in
  @inSync _ recorderChess s /\ @selectionCurrent _ recorderChess s.
Proof.
  exact (@store_stays_current _ recorderChess
           [StartGame PvpMode; MakeMove "e2" "e4" None; UndoMove]
           recorder_fresh).
Defined.

Lemma muted_store_silent_witness :
  forallb (fun e => negb (isSound e))
          (snd (@run _ recorderChess
                     (@toggleSound _ (@initialState _ recorderChess))
                     [StartGame AiMode; MakeMove "e2" "e4" None;
                      AiAnswered (Some (quiet "e7" "e5"))]))
  = true.
Proof.
  exact (@muted_store_silent _ recorderChess
           (@toggleSound _ (@initialState _ recorderChess))
           [StartGame AiMode; MakeMove "e2" "e4" None;
            AiAnswered (Some (quiet "e7" "e5"))]
           eq_refl eq_refl).
Defined.

(* ===================================================================== *)
(** ** The dispatcher: whose promise an answer settles *)
(* ===================================================================== *)

Section DispatchFacts.

Context {Chess : Type} `{Rules Chess}.

Lemma noDispatcher_invariant : dispatcherInvariant noDispatcher.
Proof.
  unfold dispatcherInvariant, noDispatcher. simpl.
  split; [lia|]. split; [split; [discriminate | lia]|].
  split; [reflexivity|]. split; [reflexivity|].
  intros q _. apply lookup_empty.
Qed.

Lemma resolve_other (p q : nat) (v : option Move) (m : gmap nat (option Move)) :
  q <> p -> resolve p v m !! q = m !! q.
Proof.
  intros Hne. unfold resolve. destruct (m !! p); [reflexivity|].
  apply lookup_insert_ne. congruence.
Qed.

Lemma resolve_first (p : nat) (v : option Move) (m : gmap nat (option Move)) :
  m !! p = None -> resolve p v m = <[p := v]> m.
Proof. intros Hp. unfold resolve. rewrite Hp. reflexivity. Qed.

Lemma resolve_again (p : nat) (v w : option Move) (m : gmap nat (option Move)) :
  resolve p w (<[p := v]> m) = <[p := v]> m.
Proof. unfold resolve. rewrite lookup_insert_eq. reflexivity. Qed.

Lemma happen_keeps (d : Dispatcher) (h : Happening) :
  dispatcherInvariant d -> dispatcherInvariant (happen d h).
Proof.
  intros (Hone & Hlive & Hcount & Hhandler & Hfresh).
  destruct h as [fen depth|fuel|]; simpl.
  - unfold dispatcherInvariant. simpl.
    destruct (worker d) eqn:Hw; simpl.
    + split; [exact Hone|]. split; [split; [lia | reflexivity]|].
      split; [exact Hcount|]. split; [reflexivity|].
      intros q Hq. apply Hfresh. lia.
    + split; [lia|]. split; [split; [lia | reflexivity]|].
      split; [lia|]. split; [reflexivity|].
      intros q Hq. apply Hfresh. lia.
  - unfold workerOnMessage.
    destruct (inbox d) as [|[fen depth] rest];
      [repeat split; assumption || apply Hlive|].
    destruct (findBestMove fuel fen depth);
      repeat split; assumption || apply Hlive.
  - unfold deliver.
    destruct (outbox d) as [|data rest];
      [repeat split; assumption || apply Hlive|].
    unfold dispatcherInvariant. simpl.
    split; [exact Hone|]. split; [exact Hlive|].
    split; [exact Hcount|]. split; [exact Hhandler|].
    intros q Hq. rewrite Hhandler.
    destruct (promises d) as [|p]; [apply Hfresh, Hq|].
    rewrite resolve_other by lia. apply Hfresh, Hq.
Qed.

(** X16: as long as terminateAI is not called, whatever requests are made
    and in whatever order the worker handles them and its answers arrive:
    at most one worker is ever constructed, at the first request; the
    promise the worker's [onmessage] resolves is the one of the latest
    request; and only promises already created are settled. *)
Theorem dispatcher_keeps_one_worker (hs : list Happening) :
  dispatcherInvariant (happenAll noDispatcher hs).
Proof.
  unfold happenAll.
  assert (Hgen : forall d, dispatcherInvariant d ->
                           dispatcherInvariant (fold_left happen hs d)).
  { induction hs as [|h hs IH]; intros d Hd; [exact Hd|].
    simpl. apply IH, happen_keeps, Hd. }
  apply Hgen, noDispatcher_invariant.
Qed.

(** X17: a request made while nothing is waiting is answered with what
    findBestMove returns for it: once the worker has handled the message
    and its answer is delivered, the promise of the request is resolved
    with that value, and nothing is waiting again. *)
Theorem solo_request_answered (d : Dispatcher) (fen : string) (depth : Z)
        (fuel : nat) (r : option Move) :
  dispatcherInvariant d -> idle d ->
  findBestMove fuel fen depth = Some r ->
  let p := fst (findBestMoveAsync d fen depth) in
  let d1 := snd (findBestMoveAsync d fen depth) in
  exists d2 d3,
    workerOnMessage fuel d1 = Some d2 /\
    deliver d2 = Some d3 /\
    settled d3 !! p = Some r /\
    idle d3.
Proof.
  intros (_ & _ & _ & _ & Hfresh) [Hin Hout] Hr p d1.
  unfold d1, p, findBestMoveAsync. simpl.
  unfold workerOnMessage. simpl.
  assert (Hin1 : inbox (if worker d then d
                        else mkDispatcher true (S (created d)) None [] []
                                          (settled d) (promises d)) = [])
    by (destruct (worker d); [exact Hin | reflexivity]).
  assert (Hout1 : outbox (if worker d then d
                          else mkDispatcher true (S (created d)) None [] []
                                            (settled d) (promises d)) = [])
    by (destruct (worker d); [exact Hout | reflexivity]).
  assert (Hset1 : settled (if worker d then d
                           else mkDispatcher true (S (created d)) None [] []
                                             (settled d) (promises d))
                  = settled d)
    by (destruct (worker d); reflexivity).
  rewrite Hin1, Hout1, Hset1. simpl. rewrite Hr.
  eexists. eexists. split; [reflexivity|].
  unfold deliver. simpl. split; [reflexivity|]. simpl.
  split; [|split; reflexivity].
  rewrite resolve_first by (apply Hfresh; lia).
  apply lookup_insert_eq.
Qed.

Lemma overlapped_step (c p1 : nat) (fen1 fen2 : string) (depth1 depth2 : Z)
      (r1 r2 : option Move) (st : gmap nat (option Move)) (fuel : nat)
      (x : Dispatcher) (h : Happening) :
  findBestMove fuel fen1 depth1 = Some r1 ->
  findBestMove fuel fen2 depth2 = Some r2 ->
  st !! S p1 = None ->
  noSubmit fuel h ->
  overlapped c p1 (fen1, depth1) (fen2, depth2) r1 r2 st x ->
  overlapped c p1 (fen1, depth1) (fen2, depth2) r1 r2 st (happen x h).
Proof.
  intros H1 H2 Hst [-> | ->] Hx; unfold overlapped in *;
    destruct Hx as [-> | [-> | [-> | [-> | [-> | ->]]]]];
    simpl; unfold workerOnMessage, deliver; simpl;
    rewrite ?H1, ?H2, ?resolve_again, ?(resolve_first _ _ _ Hst); simpl;
    tauto.
Qed.

(** X18: two requests on top of each other.  If a second request is made
    before the first is answered, the promise of the first is never
    settled, however the worker and the deliveries go on, and the promise of
    the second is settled by the answer to the first request: once both
    messages have gone through, it holds what findBestMove returned for the
    first position. *)
Theorem overlapping_requests (d : Dispatcher) (fen1 fen2 : string)
        (depth1 depth2 : Z) (fuel : nat) (r1 r2 : option Move) :
  dispatcherInvariant d -> idle d ->
  findBestMove fuel fen1 depth1 = Some r1 ->
  findBestMove fuel fen2 depth2 = Some r2 ->
  let p1 := fst (findBestMoveAsync d fen1 depth1) in
  let d1 := snd (findBestMoveAsync d fen1 depth1) in
  let p2 := fst (findBestMoveAsync d1 fen2 depth2) in
  let d2 := snd (findBestMoveAsync d1 fen2 depth2) in
  (forall hs, Forall (noSubmit fuel) hs ->
     settled (happenAll d2 hs) !! p1 = None /\
     (settled (happenAll d2 hs) !! p2 = None \/
      settled (happenAll d2 hs) !! p2 = Some r1)) /\
  settled (happenAll d2 [Work fuel; Deliver; Work fuel; Deliver]) !! p2
  = Some r1 /\
  idle (happenAll d2 [Work fuel; Deliver; Work fuel; Deliver]).
Proof.
  intros (_ & _ & _ & _ & Hfresh) [Hin Hout] H1 H2 p1 d1 p2 d2.
  set (c := created d1).
  assert (Hd2 : d2 = mkDispatcher true c (Some (S (promises d)))
                                  [(fen1, depth1); (fen2, depth2)] []
                                  (settled d) (S (S (promises d)))).
  { unfold d2, c, d1, findBestMoveAsync. simpl.
    destruct (worker d); simpl; rewrite ?Hin, ?Hout; reflexivity. }
  assert (Hp1 : p1 = promises d) by reflexivity.
  assert (Hp2 : p2 = S (promises d)) by reflexivity.
  assert (Hst1 : settled d !! promises d = None) by (apply Hfresh; lia).
  assert (Hst2 : settled d !! S (promises d) = None) by (apply Hfresh; lia).
  rewrite Hd2, Hp1, Hp2. clear Hd2 Hp1 Hp2.
  split; [|split].
  - intros hs Hhs.
    assert (Hend : overlapped c (promises d) (fen1, depth1) (fen2, depth2)
                              r1 r2 (settled d)
                              (happenAll
                                 (mkDispatcher true c (Some (S (promises d)))
                                    [(fen1, depth1); (fen2, depth2)] []
                                    (settled d) (S (S (promises d)))) hs)).
    { unfold happenAll.
      assert (Hgen : forall x,
                 overlapped c (promises d) (fen1, depth1) (fen2, depth2)
                            r1 r2 (settled d) x ->
                 overlapped c (promises d) (fen1, depth1) (fen2, depth2)
                            r1 r2 (settled d) (fold_left happen hs x)).
      { induction Hhs as [|h hs Hh _ IH]; intros x Hx; [exact Hx|].
        simpl. apply IH. eapply overlapped_step; eassumption. }
      apply Hgen. left. reflexivity. }
    destruct Hend as [-> | [-> | [-> | [-> | [-> | ->]]]]]; simpl;
      rewrite ?lookup_insert_eq, ?lookup_insert_ne by lia; auto.
  - unfold happenAll. simpl. unfold workerOnMessage, deliver. simpl.
    rewrite H1. simpl. rewrite H2. simpl.
    rewrite (resolve_first _ _ _ Hst2), resolve_again.
    apply lookup_insert_eq.
  - unfold happenAll. simpl. unfold workerOnMessage, deliver. simpl.
    rewrite H1. simpl. rewrite H2. simpl. split; reflexivity.
Qed.

End DispatchFacts.

Lemma twoPly_answer :
  @findBestMove _ twoPlyRules 2 "" 2 = Some (Some (quiet "b7" "b6")).
Proof. vm_compute. reflexivity. Qed.

Lemma mate_answer :
  @findBestMove _ mateRules 2 mateFen 1 = Some (Some pawnTakes).
Proof. vm_compute. reflexivity. Qed.

Lemma solo_request_answered_witness :
  exists d3,
    settled d3 !! 0%nat = Some (Some (quiet "b7" "b6")) /\ idle d3.
Proof.
  destruct (@solo_request_answered _ twoPlyRules noDispatcher
              "" 2 2%nat _ noDispatcher_invariant
              (conj eq_refl eq_refl) twoPly_answer)
    as (d2 & d3 & _ & _ & Hp & Hidle).
  exists d3. split; assumption.
Defined.

Lemma overlapping_requests_witness :
  settled
    (@happenAll _ mateRules
       (snd (findBestMoveAsync
               (snd (findBestMoveAsync noDispatcher mateFen 1)) mateFen 1))
       [Work 2; Deliver; Work 2; Deliver]) !! 1%nat
  = Some (Some pawnTakes).
Proof.
  exact (proj1 (proj2 (@overlapping_requests _ mateRules
                         noDispatcher mateFen mateFen 1 1 2%nat
                         _ _ noDispatcher_invariant
                         (conj eq_refl eq_refl) mate_answer mate_answer))).
Defined.

(* ===================================================================== *)
(** ** Two more things the code never does *)
(* ===================================================================== *)

Section NeverDone.

Context {Chess : Type} `{Rules Chess}.

(** X20: whatever the engine reports about finished games, a move
    findBestMove returns is one of the moves the engine lists at the
    root. *)
Theorem findBestMove_result_listed (fen : string) (depth : Z) (fuel : nat)
        (m : Move) :
  undo_restores ->
  1 <= depth -> (Z.to_nat depth <= fuel)%nat ->
  findBestMove fuel fen depth = Some (Some m) ->
  In m (moves (newChess fen)).
Proof.
  intros Hundo H1 Hf Hbest.
  destruct (search_restores Hundo fuel depth (newChess fen) H1 Hf)
    as (r & tr & Hs & _ & Hr & _).
  rewrite (findBestMove_search _ _ _ _ _ _ Hs) in Hbest.
  injection Hbest as Hbest.
  destruct Hr as [[-> _] | (i & m' & Hi & -> & _)]; simpl in Hbest;
    [discriminate|].
  injection Hbest as <-.
  eapply sortMoves_In, nth_error_In, Hi.
Qed.

End NeverDone.

Lemma findBestMove_result_listed_witness :
  In pawnTakes (@moves _ mateRules (@newChess _ mateRules mateFen)).
Proof.
  apply (@findBestMove_result_listed _ mateRules mateFen 1 1%nat pawnTakes
           (treeRules_undo _) ltac:(lia) ltac:(lia)).
  vm_compute. reflexivity.
Defined.

Section ClickFacts.

Context {G : Type} `{ChessJs G}.

Lemma includesSquare_In (l : list string) (x : string) :
  includesSquare l x = true -> In x l.
Proof.
  unfold includesSquare. intros Hex. apply existsb_exists in Hex.
  destruct Hex as (y & Hy & Heq). apply String.eqb_eq in Heq. subst y. exact Hy.
Qed.

Lemma makeMove_game (s : State) (f t : string) (p : option PieceSymbol) :
  match game_move (game s) f t p with
  | Some (_, _, g) => game (fst (makeMove s f t p)) = g
  | None => makeMove s f t p = (s, [])
  end.
Proof.
  unfold makeMove.
  destruct (game_move (game s) f t p) as [[[mv flags] g]|]; [|reflexivity].
  cbv zeta.
  match goal with
  | |- context [if ?c then _ else _] => destruct c
  end; reflexivity.
Qed.

(** X19: a click changes the game object only by playing a move of the
    selected piece to a square the engine lists as one of its
    destinations, and only while the store's status is playing and the AI
    is not thinking; with the AI as opponent, only when White is to
    move. *)
Theorem click_moves_legally (s : State) (square : string) :
  game (fst (selectSquare s square)) = game s \/
  exists selected mv flags,
    selectedSquare s = Some selected /\
    In square (getLegalMovesFrom s selected) /\
    game_move (game s) selected square None
    = Some (mv, flags, game (fst (selectSquare s square))) /\
    status s = Playing /\ aiThinking s = false /\
    (gameMode s = AiMode -> game_turn (game s) = White).
Proof.
  unfold selectSquare.
  destruct (negb (isPlaying (status s)) || aiThinking s) eqn:Hguard;
    [left; reflexivity|].
  destruct (isAiMode (gameMode s) && colorEqb (game_turn (game s)) Black)
    eqn:Hblack; [left; reflexivity|].
  cbv zeta.
  assert (Hown : game (fst (match game_get (game s) square with
                            | Some p =>
                                if colorEqb (color p) (game_turn (game s))
                                then (set_selection (Some square)
                                        (getLegalMovesFrom s square) s,
                                      @nil Effect)
                                else (set_selection None [] s, [])
                            | None => (set_selection None [] s, [])
                            end)) = game s).
  { destruct (game_get (game s) square) as [p|];
      [destruct (colorEqb (color p) (game_turn (game s)))|]; reflexivity. }
  destruct (selectedSquare s) as [selected|] eqn:Hsel; [|left; exact Hown].
  destruct (includesSquare (getLegalMovesFrom s selected) square) eqn:Hin;
    [|left; exact Hown].
  destruct (reachesLastRank (game_get (game s) selected) square);
    [left; reflexivity|].
  pose proof (makeMove_game s selected square None) as Hm.
  destruct (game_move (game s) selected square None) as [[[mv flags] g]|] eqn:Hmv.
  - right. exists selected, mv, flags.
    apply orb_false_elim in Hguard. destruct Hguard as [Hplay Hthink].
    apply negb_false_iff in Hplay.
    split; [reflexivity|]. split; [apply includesSquare_In, Hin|].
    split; [rewrite Hm; first [exact Hmv | reflexivity]|].
    split; [destruct (status s); try discriminate; reflexivity|].
    split; [exact Hthink|].
    intros Hmode. rewrite Hmode in Hblack. simpl in Hblack.
    destruct (game_turn (game s)); [reflexivity | discriminate].
  - left. rewrite Hm. reflexivity.
Qed.

End ClickFacts.
